(** * ClauseWise legal analyzer: a shallow embedding of [legal_analyzer.py]

    The development follows the layout of the Python module.  Python [str]
    values are modelled by Rocq [string]s whose characters are read as the
    code points 0..255 (Latin-1); on that range the classes used by
    [str.strip], [str.lower] and the [re] escapes [\s], [\d] are the ones
    tabulated in [PyStr].  External collaborators (the three transformer
    pipelines and [dateparser.search.search_dates]) are the fields of the
    class [Collaborators]; a call returns a value or raises. *)

From Stdlib Require Import Bool Arith Lia List Sorted Ascii String QArith.
From Stdlib Require Import DecimalString DecimalNat.
Import ListNotations.
Open Scope string_scope.
Open Scope nat_scope.

(* ------------------------------------------------------------------ *)
(** ** Python [str] primitives *)

Module PyStr.

Definition ord (c : ascii) : nat := nat_of_ascii c.

Definition between (lo hi : nat) (c : ascii) : bool :=
  (lo <=? ord c) && (ord c <=? hi).

(** [str.isspace] on one character, which is also the class [\s] of a
    [str] pattern: TAB..CR, FS..US, SPACE, NEL and NBSP. *)
Definition isspace (c : ascii) : bool :=
  between 9 13 c || between 28 32 c || (ord c =? 133) || (ord c =? 160).

(** [\d] of a [str] pattern (decimal digits). *)
Definition isdecimal (c : ascii) : bool := between 48 57 c.

(** The explicit class [[A-Z]]. *)
Definition is_AZ (c : ascii) : bool := between 65 90 c.

Definition is_char (x c : ascii) : bool := Ascii.eqb x c.

(** [str.lower] on one character: A-Z and the Latin-1 capitals
    (all of 0xC0..0xDE but the multiplication sign 0xD7) move up by 32. *)
Definition lower_char (c : ascii) : ascii :=
  if between 65 90 c || (between 192 222 c && negb (ord c =? 215))
  then ascii_of_nat (ord c + 32)
  else c.

Fixpoint lower (s : string) : string :=
  match s with
  | EmptyString => EmptyString
  | String c s' => String (lower_char c) (lower s')
  end.

Fixpoint lstrip (s : string) : string :=
  match s with
  | EmptyString => EmptyString
  | String c s' => if isspace c then lstrip s' else s
  end.

Fixpoint rstrip (s : string) : string :=
  match s with
  | EmptyString => EmptyString
  | String c s' =>
      match rstrip s' with
      | EmptyString => if isspace c then EmptyString else String c EmptyString
      | t => String c t
      end
  end.

(** [s.strip()] *)
Definition strip (s : string) : string := rstrip (lstrip s).

(** Truth value of a [str]: the empty string is falsy. *)
Definition truthy (s : string) : bool :=
  match s with EmptyString => false | _ => true end.

(** [kw in s] *)
Fixpoint str_in (kw s : string) : bool :=
  match s with
  | EmptyString => prefix kw EmptyString
  | String _ s' => prefix kw s || str_in kw s'
  end.

(** [s[:n]] *)
Definition take (n : nat) (s : string) : string := substring 0 n s.

Fixpoint all_chars (p : ascii -> bool) (s : string) : bool :=
  match s with
  | EmptyString => true
  | String c s' => p c && all_chars p s'
  end.

(** The characters that string literals cannot hold. *)
Definition TAB : string := String "009"%char EmptyString.
Definition NL : string := String "010"%char EmptyString.

End PyStr.

Import PyStr.

(* ------------------------------------------------------------------ *)
(** ** The fragment of [re] that the clause splitter uses *)

Module Re.

(** Pattern syntax: a one-character class, a greedy [+] over a class,
    one-character look-behind and look-ahead assertions, concatenation and
    ordered alternation. *)
Inductive regex : Type :=
| Cls (p : ascii -> bool)
| Plus (p : ascii -> bool)
| Behind (p : ascii -> bool)
| Ahead (p : ascii -> bool)
| Cat (r1 r2 : regex)
| Alt (r1 r2 : regex).

(** A continuation receives the character before the cursor, the rest of
    the subject and the number of characters consumed since the match
    started. *)
Definition cont : Type := option ascii -> string -> nat -> option nat.

(** Greedy [p+] with backtracking: take as many characters as possible and
    give them back one at a time while the continuation fails. *)
Fixpoint plus (p : ascii -> bool) (s : string) (n : nat) (k : cont)
  : option nat :=
  match s with
  | EmptyString => None
  | String c s' =>
      if p c then
        match plus p s' (S n) k with
        | Some m => Some m
        | None => k (Some c) s' (S n)
        end
      else None
  end.

Fixpoint exec (r : regex) (prev : option ascii) (s : string) (n : nat)
         (k : cont) : option nat :=
  match r with
  | Cls p =>
      match s with
      | String c s' => if p c then k (Some c) s' (S n) else None
      | EmptyString => None
      end
  | Plus p => plus p s n k
  | Behind p =>
      match prev with
      | Some c => if p c then k prev s n else None
      | None => None
      end
  | Ahead p =>
      match s with
      | String c _ => if p c then k prev s n else None
      | EmptyString => None
      end
  | Cat r1 r2 => exec r1 prev s n (fun prev' s' n' => exec r2 prev' s' n' k)
  | Alt r1 r2 =>
      match exec r1 prev s n k with
      | Some m => Some m
      | None => exec r2 prev s n k
      end
  end.

(** Length of the match of [r] that starts at the cursor, if there is one. *)
Definition match_here (r : regex) (prev : option ascii) (s : string)
  : option nat :=
  exec r prev s 0 (fun _ _ n => Some n).

Definition push_char (c : ascii) (pieces : list string) : list string :=
  match pieces with
  | [] => [String c EmptyString]
  | p :: ps => String c p :: ps
  end.

(** [re.split] without capture groups and without [maxsplit]: scan left to
    right, cut at the leftmost match, resume after it.  [skip] counts the
    characters of the current match still to be dropped.  A match of length
    0 is not a cut here; the pattern of this program has none
    ([clause_boundary_nonempty]). *)
Fixpoint split_from (r : regex) (skip : nat) (prev : option ascii)
         (s : string) : list string :=
  match s with
  | EmptyString => [EmptyString]
  | String c s' =>
      match skip with
      | S j => split_from r j (Some c) s'
      | 0 =>
          match match_here r prev s with
          | Some (S j) => EmptyString :: split_from r j (Some c) s'
          | _ => push_char c (split_from r 0 (Some c) s')
          end
      end
  end.

Definition split (r : regex) (s : string) : list string :=
  split_from r 0 None s.

End Re.

(* ------------------------------------------------------------------ *)
(** ** [difflib.SequenceMatcher(None, a, b).ratio()] *)

Module Difflib.

Definition elt (l : list ascii) (i : nat) : ascii := nth i l "000"%char.

Fixpoint positions (x : ascii) (b : list ascii) (j : nat) : list nat :=
  match b with
  | [] => []
  | y :: b' =>
      if Ascii.eqb x y then j :: positions x b' (S j) else positions x b' (S j)
  end.

(** [b2j.get(x, [])] after [__chain_b]: with [isjunk = None] nothing is
    junk; with [autojunk] a character is dropped as popular when [b] has at
    least 200 characters and the character fills more than 1% + 1 of them. *)
Definition b2j (b : list ascii) (x : ascii) : list nat :=
  let idxs := positions x b 0 in
  let n := List.length b in
  if (200 <=? n) && (n / 100 + 1 <? List.length idxs) then [] else idxs.

(** [j2len.get(j, 0)] on a dict kept as an association list. *)
Definition j2len_get (j2len : list (nat * nat)) (j : nat) : nat :=
  match find (fun kv => fst kv =? j) j2len with
  | Some kv => snd kv
  | None => 0
  end.

(** [j2len.get(j-1, 0)]: the key [-1] is never bound. *)
Definition j2len_pred (j2len : list (nat * nat)) (j : nat) : nat :=
  match j with
  | 0 => 0
  | S j' => j2len_get j2len j'
  end.

(** A [Match(a, b, size)] triple. *)
Definition block : Type := nat * nat * nat.

Definition size (x : block) : nat := snd x.

(** The loop [for j in b2j.get(a[i], nothing)] of [find_longest_match]. *)
Fixpoint scan_js (js : list nat) (blo bhi i : nat)
         (j2len newj2len : list (nat * nat)) (best : block)
  : list (nat * nat) * block :=
  match js with
  | [] => (newj2len, best)
  | j :: js' =>
      if j <? blo then scan_js js' blo bhi i j2len newj2len best
      else if bhi <=? j then (newj2len, best)
      else
        let k := j2len_pred j2len j + 1 in
        let best' := if size best <? k then (i + 1 - k, j + 1 - k, k) else best in
        scan_js js' blo bhi i j2len ((j, k) :: newj2len) best'
  end.

(** The loop [for i in range(alo, ahi)]. *)
Fixpoint scan_is (a b : list ascii) (is_ : list nat) (blo bhi : nat)
         (j2len : list (nat * nat)) (best : block) : block :=
  match is_ with
  | [] => best
  | i :: is' =>
      let '(newj2len, best') :=
        scan_js (b2j b (elt a i)) blo bhi i j2len [] best in
      scan_is a b is' blo bhi newj2len best'
  end.

(** First [while]: grow the block to the left over equal characters. *)
Fixpoint extend_left (a b : list ascii) (alo blo : nat) (fuel : nat)
         (best : block) : block :=
  let '(besti, bestj, bestsize) := best in
  match fuel with
  | 0 => best
  | S fuel' =>
      if (alo <? besti) && (blo <? bestj)
         && Ascii.eqb (elt a (besti - 1)) (elt b (bestj - 1))
      then extend_left a b alo blo fuel' (besti - 1, bestj - 1, bestsize + 1)
      else best
  end.

(** Second [while]: grow it to the right. *)
Fixpoint extend_right (a b : list ascii) (ahi bhi : nat) (fuel : nat)
         (best : block) : block :=
  let '(besti, bestj, bestsize) := best in
  match fuel with
  | 0 => best
  | S fuel' =>
      if (besti + bestsize <? ahi) && (bestj + bestsize <? bhi)
         && Ascii.eqb (elt a (besti + bestsize)) (elt b (bestj + bestsize))
      then extend_right a b ahi bhi fuel' (besti, bestj, bestsize + 1)
      else best
  end.

(** [find_longest_match(alo, ahi, blo, bhi)].  The two last [while] loops
    of the library only absorb junk and never run when [isjunk] is [None].
    The fuel of each extension loop is the distance it can still cover. *)
Definition find_longest_match (a b : list ascii) (alo ahi blo bhi : nat)
  : block :=
  let best := scan_is a b (seq alo (ahi - alo)) blo bhi [] (alo, blo, 0) in
  let best := extend_left a b alo blo (fst (fst best)) best in
  extend_right a b ahi bhi ahi best.

(** The blocks that [get_matching_blocks] appends, before it sorts and
    merges them (neither changes the sum of the sizes) and without the
    closing sentinel of size 0.  The library works through an explicit
    stack of windows; both windows pushed for a block are strictly shorter
    in [a], which [fuel] counts. *)
Fixpoint blocks (a b : list ascii) (fuel : nat) (alo ahi blo bhi : nat)
  : list block :=
  match fuel with
  | 0 => []
  | S fuel' =>
      let '(i, j, k) := find_longest_match a b alo ahi blo bhi in
      if k =? 0 then []
      else
        ((i, j, k)
           :: (if (alo <? i) && (blo <? j)
               then blocks a b fuel' alo i blo j else [])
           ++ (if (i + k <? ahi) && (j + k <? bhi)
               then blocks a b fuel' (i + k) ahi (j + k) bhi else []))%list
  end.

Definition get_matching_blocks (a b : list ascii) : list block :=
  let la := List.length a in
  let lb := List.length b in
  blocks a b (S la) 0 la 0 lb.

(** [_calculate_ratio].  The float quotient [2.0 * matches / length] is
    kept as the exact rational: against the literal [0.8] the comparison
    [>] on doubles and on the exact values agree as long as [length] stays
    below 10^15. *)
Definition calculate_ratio (matches length : nat) : Q :=
  match length with
  | 0 => 1%Q
  | _ => (Z.of_nat (2 * matches) # Pos.of_nat length)%Q
  end.

Definition ratio (a b : string) : Q :=
  let a := list_ascii_of_string a in
  let b := list_ascii_of_string b in
  let matches := list_sum (map size (get_matching_blocks a b)) in
  calculate_ratio matches (List.length a + List.length b).

(** [x > y] on the two quotients. *)
Definition Qgtb (x y : Q) : bool := negb (Qle_bool x y).

End Difflib.

(* ------------------------------------------------------------------ *)
(** ** Module constants *)

(** [clause_keywords]: a [dict] literal, iterated in insertion order. *)
Definition clause_keywords : list (string * list string) :=
  [ ("Obligation", ["shall"; "must"; "agree to"]);
    ("Rights", ["reserves the right"; "may"]);
    ("Confidentiality", ["confidential"; "non-disclosure"]);
    ("Risk", ["liable"; "indemnify"; "at your own risk"]) ].

Definition boilerplate_templates : list string :=
  [ "This Agreement shall be governed by the laws of the State of";
    "The parties agree to the following terms and conditions" ].

(* ------------------------------------------------------------------ *)
(** ** Clause splitter *)

(** [(?<=\.)\s+(?=[A-Z])] *)
Definition sentence_break : Re.regex :=
  Re.Cat (Re.Behind (is_char ".")) (Re.Cat (Re.Plus isspace) (Re.Ahead is_AZ)).

(** [\n] *)
Definition newline : Re.regex := Re.Cls (is_char "010").

(** [\d+\.\s+] *)
Definition enumeration : Re.regex :=
  Re.Cat (Re.Plus isdecimal) (Re.Cat (Re.Cls (is_char ".")) (Re.Plus isspace)).

(** [(?<=\.)\s+(?=[A-Z])|\n|\d+\.\s+] *)
Definition clause_boundary : Re.regex :=
  Re.Alt sentence_break (Re.Alt newline enumeration).

Definition split_into_clauses (text : string) : list string :=
  Re.split clause_boundary (strip text).

(* ------------------------------------------------------------------ *)
(** ** Keyword heuristics *)

(** The inner [for kw in keywords] loop of [classify_clause]: does some
    keyword hit? *)
Definition any_keyword (keywords : list string) (clause : string) : bool :=
  existsb (fun kw => str_in (lower kw) (lower clause)) keywords.

(** The outer loop over [clause_keywords.items()]. *)
Fixpoint classify_items (items : list (string * list string))
         (clause : string) : string :=
  match items with
  | [] => "Other"
  | (category, keywords) :: items' =>
      if any_keyword keywords clause then category
      else classify_items items' clause
  end.

Definition classify_clause (clause : string) : string :=
  classify_items clause_keywords clause.

Definition risk_keywords : list string :=
  ["liable"; "indemnify"; "terminate"; "breach"].

(** Returns [(importance, score)] as the source does. *)
Definition grade_clause (clause : string) : string * nat :=
  let score :=
    List.length (filter (fun kw => str_in kw (lower clause)) risk_keywords) in
  let importance :=
    if 2 <=? score then "High" else if score =? 1 then "Medium" else "Low" in
  (importance, score).

Definition rewrite_clause (clause : string) : string :=
  let clause_lower := lower clause in
  if str_in "indemnify" clause_lower then
    "Consider softening indemnity to mutual responsibility."
  else if str_in "liable" clause_lower then
    "Clarify or limit liability language."
  else "Clause appears clear.".


(* ------------------------------------------------------------------ *)
(** ** Boilerplate detector *)

(** The literal [0.8]. *)
Definition boilerplate_threshold : Q := (8 # 10)%Q.

Fixpoint detect_templates (templates : list string) (clause : string) : bool :=
  match templates with
  | [] => false
  | template :: templates' =>
      if Difflib.Qgtb (Difflib.ratio (lower clause) (lower template))
                      boilerplate_threshold
      then true
      else detect_templates templates' clause
  end.

Definition detect_boilerplate (clause : string) : bool :=
  detect_templates boilerplate_templates clause.

(* ------------------------------------------------------------------ *)
(** ** Exceptions and the external collaborators *)

Inductive exn : Type :=
| ExternalModelFailure (msg : string)
| IndexError
| ValueError.

(** A computation that returns a value or raises. *)
Definition result (A : Type) : Type := (exn + A)%type.

Definition ret {A : Type} (x : A) : result A := inr x.
Definition raise {A : Type} (e : exn) : result A := inl e.

Definition bind {A B : Type} (m : result A) (f : A -> result B) : result B :=
  match m with
  | inl e => inl e
  | inr x => f x
  end.

Notation "x <- m ;; k" := (bind m (fun x => k))
  (at level 61, m at next level, right associativity).
Notation "' p <- m ;; k" := (bind m (fun p => k))
  (at level 61, p pattern, m at next level, right associativity).

(** One [{'label': ..., 'score': ...}] entry of a classifier's output;
    the float score is kept as a rational. *)
Record prediction : Type := { label : string; score : Q }.

(** The pipelines created at import time and [search_dates], as functions
    of their input that may raise.  [summarizer] yields the
    ['summary_text'] of each returned entry. *)
Class Collaborators : Type := {
  sentiment_classifier : string -> result (list prediction);
  emotion_classifier : string -> result (list (list prediction));
  summarizer : string -> result (list string);
  datetime : Type;
  strftime_ymd : datetime -> string;
  search_dates : string -> result (option (list (string * datetime)))
}.

(** [l[0]] *)
Definition item0 {A : Type} (l : list A) : result A :=
  match l with
  | [] => raise IndexError
  | x :: _ => ret x
  end.

(** [max(l, key=lambda x: x['score'])]: the first entry of maximal score. *)
Fixpoint max_from (best : prediction) (l : list prediction) : prediction :=
  match l with
  | [] => best
  | x :: l' =>
      if Difflib.Qgtb (score x) (score best) then max_from x l'
      else max_from best l'
  end.

Definition max_by_score (l : list prediction) : result prediction :=
  match l with
  | [] => raise ValueError
  | x :: l' => ret (max_from x l')
  end.

(** [enumerate(l, start)] *)
Fixpoint enumerate {A : Type} (start : nat) (l : list A) : list (nat * A) :=
  match l with
  | [] => []
  | x :: l' => (start, x) :: enumerate (S start) l'
  end.

Record ClauseResult : Type := {
  clause_num : nat;
  clause_text : string;
  category : string;
  importance : string;
  risk_score : nat;
  dates : list (string * string);
  boilerplate : bool;
  sentiment : string;
  tone : string;
  rewrite_suggestion : string
}.

Section Pipeline.

Context {ext : Collaborators}.

Definition extract_timeline (clause : string) : result (list (string * string)) :=
  dates <- search_dates clause ;;
  match dates with
  | Some ((_ :: _) as found) =>
      ret (map (fun d => (fst d, strftime_ymd (snd d))) found)
  | _ => ret []
  end.

Definition analyze_tone (text : string) : result (string * string) :=
  let text := take 512 text in
  sentiment_out <- sentiment_classifier text ;;
  sentiment_top <- item0 sentiment_out ;;
  let sentiment_result := lower (label sentiment_top) in
  emotion_out <- emotion_classifier text ;;
  emotion_scores <- item0 emotion_out ;;
  top <- max_by_score emotion_scores ;;
  let top_emotion := lower (label top) in
  ret (sentiment_result, top_emotion).

Definition summarize (text : string) : result string :=
  let max_len := 1024 in
  summary_out <- summarizer (take max_len text) ;;
  summary <- item0 summary_out ;;
  ret summary.

(** The body of the [for] loop of [analyze_document] for a clause that
    passed the emptiness test. *)
Definition analyze_clause (i : nat) (clause : string) : result ClauseResult :=
  let category := classify_clause clause in
  let '(importance, risk_score) := grade_clause clause in
  dates <- extract_timeline clause ;;
  let is_boilerplate := detect_boilerplate clause in
  '(sentiment, tone) <- analyze_tone clause ;;
  let rewrite := rewrite_clause clause in
  ret {| clause_num := i;
         clause_text := clause;
         category := category;
         importance := importance;
         risk_score := risk_score;
         dates := dates;
         boilerplate := is_boilerplate;
         sentiment := sentiment;
         tone := tone;
         rewrite_suggestion := rewrite |}.

(** [for i, clause in enumerate(clauses, 1)], threading [results]. *)
Fixpoint analyze_loop (items : list (nat * string))
         (results : list ClauseResult) : result (list ClauseResult) :=
  match items with
  | [] => ret results
  | (i, clause) :: items' =>
      if negb (truthy (strip clause)) then analyze_loop items' results
      else
        r <- analyze_clause i clause ;;
        analyze_loop items' (results ++ [r])%list
  end.

Definition analyze_document (text : string) : result (list ClauseResult) :=
  let clauses := split_into_clauses text in
  analyze_loop (enumerate 1 clauses) [].

End Pipeline.

(* ------------------------------------------------------------------ *)
(** ** Vocabulary of the specification *)

(** [kw] occurs in [s] as a contiguous substring. *)
Definition occurs_in (kw s : string) : Prop :=
  exists before after, s = before ++ kw ++ after.

(** Case-insensitive containment of a keyword in a clause. *)
Definition keyword_hit (kw clause : string) : Prop :=
  occurs_in (lower kw) (lower clause).

Definition category_hit (keywords : list string) (clause : string) : Prop :=
  exists kw, In kw keywords /\ keyword_hit kw clause.

(** A clause is kept by the orchestrator when it is non-empty after
    stripping. *)
Definition kept (clause : string) : bool := truthy (strip clause).

Definition retained {A : Type} (items : list (A * string)) : list (A * string) :=
  filter (fun ic => kept (snd ic)) items.

(** Some suffix of [s] satisfies [p]. *)
Fixpoint somewhere (p : string -> bool) (s : string) : bool :=
  match s with
  | EmptyString => p EmptyString
  | String _ s' => p s || somewhere p s'
  end.

(** A period, then whitespace, then a capital letter. *)
Definition at_sentence_break (s : string) : bool :=
  match s with
  | String dot (String w rest) =>
      is_char "." dot && isspace w &&
      match lstrip rest with
      | String u _ => is_AZ u
      | EmptyString => false
      end
  | _ => false
  end.

Definition at_newline (s : string) : bool :=
  match s with
  | String c _ => is_char "010" c
  | EmptyString => false
  end.

(** A digit, a period and one whitespace character accepted by [ws]. *)
Definition at_enumeration (ws : ascii -> bool) (s : string) : bool :=
  match s with
  | String d (String dot (String w _)) => isdecimal d && is_char "." dot && ws w
  | _ => false
  end.

(** The document holds a boundary marker, the enumeration marker being
    digits, a period and a character of [ws]. *)
Definition has_marker (ws : ascii -> bool) (doc : string) : bool :=
  somewhere at_sentence_break doc
  || somewhere at_newline doc
  || somewhere (at_enumeration ws) doc.

(** The reading in which the enumeration marker ends in the two
    characters period, space. *)
Definition has_marker_dot_space (doc : string) : bool :=
  has_marker (is_char " ") doc.

(** The reading in which any whitespace may follow the period. *)
Definition has_marker_dot_ws (doc : string) : bool :=
  has_marker isspace doc.

(** Entries of a [j2len] row built for the window starting at [(alo, blo)]:
    a run ending at column [j] fits between [blo] and [j], and is no longer
    than [bound - alo]. *)
Definition row_ok (alo blo bound : nat) (j2len : list (nat * nat)) : Prop :=
  Forall (fun kv => blo <= fst kv /\ snd kv + blo <= fst kv + 1 /\
                    snd kv + alo <= bound) j2len.

Definition best_ok (alo ahi blo bhi : nat) (best : Difflib.block) : Prop :=
  let '(i, j, k) := best in
  alo <= i /\ i + k <= ahi /\ blo <= j /\ j + k <= bhi.

(** Two strings carry the same characters at every index below [n]. *)
Definition agree_upto (n : nat) (a b : string) : Prop :=
  forall i, i < n -> get i a = get i b.

(** The indices 1, 2, 3, ... handed out to the retained clauses when the
    survivors of the filter are numbered afresh. *)
Definition sequential_indices (text : string) : list nat :=
  map fst (enumerate 1 (filter kept (split_into_clauses text))).

Section Outcomes.

Context {ext : Collaborators}.

Definition succeeds (ic : nat * string) : Prop :=
  exists r, analyze_clause (fst ic) (snd ic) = inr r.

Definition yields (ic : nat * string) (r : ClauseResult) : Prop :=
  analyze_clause (fst ic) (snd ic) = inr r.

(** The numbers in the output are the fresh numbering of the survivors. *)
Definition contiguous_numbering (text : string) : Prop :=
  forall results,
    analyze_document text = inr results ->
    map clause_num results = sequential_indices text.

End Outcomes.

(** [c * n] *)
Fixpoint replicate (n : nat) (c : ascii) : string :=
  match n with
  | 0 => EmptyString
  | S n' => String c (replicate n' c)
  end.

(* ------------------------------------------------------------------ *)
(** ** A small stand-in for the collaborators

    Used to run the pipeline on concrete documents.  The sentiment model
    refuses any text holding an exclamation mark; the labels and scores of
    both classifiers depend on keywords anywhere in the text they are
    given, and the summary is that text itself. *)

Definition demo_sentiment (text : string) : result (list prediction) :=
  if str_in "!" text
  then raise (ExternalModelFailure "sentiment model unavailable")
  else ret [ {| label := if str_in "liable" text then "NEGATIVE" else "POSITIVE";
                score := (9 # 10)%Q |} ].

Definition demo_emotion (text : string) : result (list (list prediction)) :=
  ret [ [ {| label := "neutral"; score := (1 # 2)%Q |};
          {| label := "fear";
             score := if str_in "breach" text then (3 # 4)%Q else (1 # 4)%Q |};
          {| label := "joy"; score := (1 # 2)%Q |} ] ].

Definition demo_summarizer (text : string) : result (list string) :=
  ret [text].

Definition demo_search_dates (text : string)
  : result (option (list (string * (nat * nat * nat)))) :=
  ret None.

Definition demo : Collaborators :=
  {| sentiment_classifier := demo_sentiment;
     emotion_classifier := demo_emotion;
     summarizer := demo_summarizer;
     datetime := (nat * nat * nat)%type;
     strftime_ymd := fun _ => "1970-01-01";
     search_dates := demo_search_dates |}.

(** The subject from the character before the cursor onwards. *)
Definition before_cursor (prev : option ascii) (s : string) : string :=
  match prev with
  | Some c => String c s
  | None => s
  end.

(** A document without marker, the enumeration marker read as digits,
    period, space, comes back as one clause. *)
Definition single_clause_when_unmarked (text : string) : Prop :=
  has_marker_dot_space text = false -> split_into_clauses text = [strip text].

(** What the pipeline returns with the stand-in collaborators, [[]] when
    it raises. *)
Definition demo_results (text : string) : list ClauseResult :=
  match analyze_document (ext := demo) text with
  | inr results => results
  | inl _ => []
  end.

(** Sample documents. *)
Definition doc_blank_line : string := "Alpha" ++ NL ++ NL ++ "Beta".
Definition doc_tab_enumeration : string := "1." ++ TAB ++ "foo".
Definition doc_failing_second : string := "Alpha." ++ NL ++ "Beta!" ++ NL ++ "Gamma".

Definition long_clause_a : string := replicate 512 "x" ++ " and we are liable".
Definition long_clause_b : string := replicate 512 "x" ++ " and all is well".
Definition long_doc_d : string := replicate 1024 "y" ++ " first ending".
Definition long_doc_e : string := replicate 1024 "y" ++ " second ending".

(* ------------------------------------------------------------------ *)
(** ** Text extraction and the application helpers *)

(** [s.split(c)] for a one-character separator [c]. *)
Fixpoint split_char (c : ascii) (s : string) : list string :=
  match s with
  | EmptyString => [EmptyString]
  | String x s' =>
      if Ascii.eqb x c then EmptyString :: split_char c s'
      else Re.push_char x (split_char c s')
  end.

(** [str(n)] for a non-negative [int]. *)
Definition str_of_nat (n : nat) : string :=
  NilEmpty.string_of_uint (Nat.to_uint n).

(** Truth value of a value that is [None] or a [str]. *)
Definition truthy_opt (text : option string) : bool :=
  match text with
  | Some s => truthy s
  | None => false
  end.

(** The file libraries: an uploaded file object with its [name], the
    decoded bytes [file.read().decode("utf-8")], the [text] of each
    paragraph of [docx.Document(file)] and the [get_text()] of each page
    of [fitz.open(stream=file.read(), filetype="pdf")]; and the
    question-answering pipeline, giving the ['answer'] entry. *)
Class FileLibs : Type := {
  upload : Type;
  upload_name : upload -> string;
  read_decode_utf8 : upload -> result string;
  docx_paragraphs : upload -> result (list string);
  pdf_page_texts : upload -> result (list string);
  qa_pipeline : string -> string -> result string
}.

(** The [for page in doc: text += page.get_text()] loop. *)
Fixpoint append_pages (text : string) (pages : list string) : string :=
  match pages with
  | [] => text
  | page :: pages' => append_pages (text ++ page) pages'
  end.

(** The lines a comparison reports: [set(l1) - set(l2)], kept as a
    duplicate-free list whose order stands for the unspecified iteration
    order of the set. *)
Definition set_minus (l1 l2 : list string) : list string :=
  nodup string_dec (filter (fun c => negb (existsb (String.eqb c) l2)) l1).

(** What the sidebar shows after a question. *)
Inductive chat_reply : Type :=
| ChatSilent
| ChatAnswer (answer : string)
| ChatWarnUnsupported
| ChatWarnNoDocument.

(** What the comparison button shows. *)
Inductive comparison : Type :=
| CompareWarnUpload
| CompareError
| CompareReport (missing_in_2 missing_in_1 : list string).

Section Application.

Context {libs : FileLibs}.

Definition read_txt (file : upload) : result string :=
  read_decode_utf8 file.

Definition read_docx (file : upload) : result string :=
  paragraphs <- docx_paragraphs file ;;
  ret (concat NL (filter (fun text => truthy (strip text)) paragraphs)).

Definition read_pdf (file : upload) : result string :=
  let text := EmptyString in
  pages <- pdf_page_texts file ;;
  ret (append_pages text pages).

(** [file.name.split('.')[-1].lower()] *)
Definition file_ext (file : upload) : string :=
  lower (last (split_char "." (upload_name file)) EmptyString).

Definition load_text (file : upload) : result (option string) :=
  let ext := file_ext file in
  if (ext =? "txt")%string then
    text <- read_txt file ;; ret (Some text)
  else if (ext =? "docx")%string then
    text <- read_docx file ;; ret (Some text)
  else if (ext =? "pdf")%string then
    text <- read_pdf file ;; ret (Some text)
  else ret None.

(** The sidebar: [question] typed, [uploaded_file] possibly absent. *)
Definition clausebot (question : string) (uploaded_file : option upload)
  : result chat_reply :=
  if truthy question then
    match uploaded_file with
    | Some file =>
        let ext := file_ext file in
        context <-
          (if (ext =? "txt")%string then read_txt file
           else if (ext =? "docx")%string then read_docx file
           else if (ext =? "pdf")%string then read_pdf file
           else ret EmptyString) ;;
        if truthy context then
          answer <- qa_pipeline question context ;;
          ret (ChatAnswer answer)
        else ret ChatWarnUnsupported
    | None => ret ChatWarnNoDocument
    end
  else ret ChatSilent.

(** The comparison button with the two uploads. *)
Definition compare_documents (doc1 doc2 : option upload) : result comparison :=
  match doc1, doc2 with
  | Some file1, Some file2 =>
      text1 <- load_text file1 ;;
      text2 <- load_text file2 ;;
      match text1, text2 with
      | Some t1, Some t2 =>
          if truthy t1 && truthy t2 then
            let clauses1 := split_char "010" t1 in
            let clauses2 := split_char "010" t2 in
            let missing_in_2 := set_minus clauses1 clauses2 in
            let missing_in_1 := set_minus clauses2 clauses1 in
            ret (CompareReport missing_in_2 missing_in_1)
          else ret CompareError
      | _, _ => ret CompareError
      end
  | _, _ => ret CompareWarnUpload
  end.

End Application.

(** [f"feedback_{clause['clause_num']}"], the key of a result's feedback
    widget. *)
Definition feedback_key (clause : ClauseResult) : string :=
  "feedback_" ++ str_of_nat (clause_num clause).

(** [pieces[0] + seps[0] + pieces[1] + ...] *)
Fixpoint weave (pieces seps : list string) : string :=
  match pieces, seps with
  | p :: pieces', sep :: seps' => p ++ sep ++ weave pieces' seps'
  | p :: _, [] => p
  | [], _ => EmptyString
  end.

(** [s[n:]] *)
Fixpoint drop (n : nat) (s : string) : string :=
  match n, s with
  | S n', String _ s' => drop n' s'
  | _, _ => s
  end.

(** The characters a boundary match can consume. *)
Definition sep_char (c : ascii) : bool :=
  isspace c || isdecimal c || is_char "." c.

(** A stand-in for the file libraries: an upload is a name and a list of
    texts, read as the decoded content (joined), the paragraphs or the
    pages; the question-answering stand-in answers with the question
    followed by the length of the context. *)
Definition demo_libs : FileLibs :=
  {| upload := (string * list string)%type;
     upload_name := fst;
     read_decode_utf8 := fun file => ret (concat EmptyString (snd file));
     docx_paragraphs := fun file => ret (snd file);
     pdf_page_texts := fun file => ret (snd file);
     qa_pipeline := fun question context =>
                      ret (question ++ " " ++ str_of_nat (length context)) |}.

(** Sample uploads for the stand-in libraries. *)
Definition upload_docx : string * list string :=
  ("Lease.v2.DOCX", ["First paragraph."; "  "; "Second one."; ""]).
Definition upload_old : string * list string :=
  ("old.txt", ["alpha" ++ NL ++ "beta" ++ NL ++ "beta"]).
Definition upload_new : string * list string :=
  ("new.txt", ["beta" ++ NL ++ "gamma"]).
Definition upload_empty_pdf : string * list string := ("scan.pdf", []).

Definition no_dot (s : string) : bool :=
  all_chars (fun c => negb (is_char "." c)) s.

Definition supported_ext (ext : string) : bool :=
  (ext =? "txt")%string || (ext =? "docx")%string || (ext =? "pdf")%string.

(** What stands between two neighbouring clauses. *)
Definition separator (sep : string) : Prop :=
  sep <> EmptyString /\ all_chars sep_char sep = true.

Definition no_newline (s : string) : bool :=
  all_chars (fun c => negb (is_char "010" c)) s.

(** A boundary marker is still ahead of the cursor: a sentence break whose
    period is the character before the cursor, or any marker later on. *)
Definition marker_ahead (prev : option ascii) (s : string) : bool :=
  match prev with
  | Some c => at_sentence_break (String c s)
  | None => false
  end
  || has_marker_dot_ws s.

(* ================================================================== *)
(** * Properties *)

(** ** Containment *)

Lemma prefix_iff (kw s : string) :
  prefix kw s = true <-> exists after, s = kw ++ after.
Proof.
  revert s; induction kw as [|a kw IH]; intros s.
  - destruct s; simpl; split; eauto.
  - destruct s as [|b s]; simpl.
    + split; [discriminate | intros [t Ht]; discriminate].
    + destruct (ascii_dec a b) as [->|Hne].
      * rewrite IH. split; intros [t Ht]; exists t.
        -- now rewrite Ht.
        -- now injection Ht.
      * split; [discriminate | intros [t Ht]; injection Ht; congruence].
Qed.

Lemma str_in_iff (kw s : string) : str_in kw s = true <-> occurs_in kw s.
Proof.
  unfold occurs_in. induction s as [|c s IH].
  - cbn [str_in]. rewrite prefix_iff. split.
    + intros [t Ht]. exists EmptyString, t. exact Ht.
    + intros [p [t Ht]]. destruct p; simpl in Ht.
      * now exists t.
      * discriminate.
  - cbn [str_in]. rewrite orb_true_iff, IH, prefix_iff. split.
    + intros [[t Ht] | [p [t Ht]]].
      * exists EmptyString, t. exact Ht.
      * exists (String c p), t. simpl. now rewrite Ht.
    + intros [p [t Ht]]. destruct p as [|c' p]; simpl in Ht.
      * left. now exists t.
      * right. injection Ht as _ Ht. now exists p, t.
Qed.

Lemma str_in_false_iff (kw s : string) :
  str_in kw s = false <-> ~ occurs_in kw s.
Proof.
  rewrite <- str_in_iff. destruct (str_in kw s); split; congruence.
Qed.

Lemma any_keyword_iff (keywords : list string) (clause : string) :
  any_keyword keywords clause = true <-> category_hit keywords clause.
Proof.
  unfold any_keyword, category_hit, keyword_hit.
  rewrite existsb_exists.
  split; intros [kw [Hin H]]; exists kw; split; auto; now apply str_in_iff.
Qed.

(** ** Clause classifier *)

Lemma classify_items_spec (items : list (string * list string)) (clause : string) :
  (exists before category keywords after,
      items = (before ++ (category, keywords) :: after)%list /\
      category_hit keywords clause /\
      (forall c ks, In (c, ks) before -> ~ category_hit ks clause) /\
      classify_items items clause = category)
  \/ ((forall c ks, In (c, ks) items -> ~ category_hit ks clause) /\
      classify_items items clause = "Other").
Proof.
  induction items as [|[cat kws] items IH].
  - right. split; [intros c ks [] | reflexivity].
  - cbn [classify_items]. destruct (any_keyword kws clause) eqn:Hany.
    + left. exists [], cat, kws, items. repeat split.
      * now apply any_keyword_iff.
      * intros c ks [].
    + assert (Hno : ~ category_hit kws clause).
      { rewrite <- any_keyword_iff. congruence. }
      destruct IH as [(before & c & ks & after & -> & Hhit & Hpre & Hres) | [Hnone Hres]].
      * left. exists ((cat, kws) :: before)%list, c, ks, after. repeat split; auto.
        intros c' ks' [Heq | Hin]; [injection Heq as <- <-; exact Hno | eauto].
      * right. split; auto.
        intros c' ks' [Heq | Hin]; [injection Heq as <- <-; exact Hno | eauto].
Qed.

(** C2: [classify_clause] returns the first category, in the declared order
    Obligation, Rights, Confidentiality, Risk, one of whose keywords is
    contained case-insensitively in the clause, and ["Other"] when no
    category has such a keyword; the clause "The Employee shall maintain
    confidentiality." is an Obligation. *)
Theorem classify_clause_first_match (clause : string) :
  map fst clause_keywords = ["Obligation"; "Rights"; "Confidentiality"; "Risk"]
  /\ ((exists before category keywords after,
          clause_keywords = (before ++ (category, keywords) :: after)%list /\
          category_hit keywords clause /\
          (forall c ks, In (c, ks) before -> ~ category_hit ks clause) /\
          classify_clause clause = category)
      \/ ((forall c ks, In (c, ks) clause_keywords -> ~ category_hit ks clause) /\
          classify_clause clause = "Other"))
  /\ classify_clause "The Employee shall maintain confidentiality." = "Obligation".
Proof.
  split; [reflexivity | split; [apply classify_items_spec | reflexivity]].
Qed.

(** ** Risk grader *)

Lemma filter_hits (p : string -> bool) (l : list string) :
  NoDup l -> NoDup (filter p l) /\
  forall kw, In kw (filter p l) <-> In kw l /\ p kw = true.
Proof.
  intros Hnd. split.
  - now apply NoDup_filter.
  - intros kw. apply filter_In.
Qed.

(** C3: the score of [grade_clause] is the number of keywords among
    liable, indemnify, terminate, breach that occur in the lowercased
    clause, each counted once; the importance is High from 2 up, Medium at
    1 and Low at 0; the sample clause scores 3 and is High. *)
Theorem grade_clause_counts_keywords (clause : string) :
  let '(importance, score) := grade_clause clause in
  risk_keywords = ["liable"; "indemnify"; "terminate"; "breach"]
  /\ (exists hits,
         NoDup hits /\
         (forall kw, In kw hits <-> In kw risk_keywords /\ occurs_in kw (lower clause)) /\
         score = List.length hits)
  /\ score <= 4
  /\ importance = (if 2 <=? score then "High"
                   else if score =? 1 then "Medium" else "Low")
  /\ (score = 0 \/ score = 1 \/ 2 <= score)
  /\ grade_clause
       "The party shall be liable and must indemnify the other party upon breach."
     = ("High", 3).
Proof.
  unfold grade_clause.
  set (p := fun kw => str_in kw (lower clause)).
  assert (Hnd : NoDup risk_keywords).
  { unfold risk_keywords. repeat constructor; simpl; intuition discriminate. }
  destruct (filter_hits p risk_keywords Hnd) as [H1 H2].
  split; [reflexivity|]. split.
  { exists (filter p risk_keywords). split; [exact H1|]. split; [|reflexivity].
    intros kw. rewrite H2. unfold p. now rewrite str_in_iff. }
  split.
  { change 4 with (List.length risk_keywords). apply filter_length_le. }
  split; [reflexivity|]. split; [lia | reflexivity].
Qed.

(** ** Rewrite advisor *)

(** C7: [rewrite_clause] returns the indemnity suggestion when the
    lowercased clause contains "indemnify", otherwise the liability
    suggestion when it contains "liable", otherwise "Clause appears
    clear."; a clause with both keywords gets the indemnity suggestion. *)
Theorem rewrite_clause_ordered (clause : string) :
  ((occurs_in "indemnify" (lower clause) /\
    rewrite_clause clause = "Consider softening indemnity to mutual responsibility.")
   \/ (~ occurs_in "indemnify" (lower clause) /\
       occurs_in "liable" (lower clause) /\
       rewrite_clause clause = "Clarify or limit liability language.")
   \/ (~ occurs_in "indemnify" (lower clause) /\
       ~ occurs_in "liable" (lower clause) /\
       rewrite_clause clause = "Clause appears clear."))
  /\ rewrite_clause "Party A shall indemnify Party B."
     = "Consider softening indemnity to mutual responsibility."
  /\ rewrite_clause "Party A shall be liable for damages."
     = "Clarify or limit liability language."
  /\ rewrite_clause "Party A is liable and shall indemnify Party B."
     = "Consider softening indemnity to mutual responsibility.".
Proof.
  split; [|repeat split].
  unfold rewrite_clause.
  destruct (str_in "indemnify" (lower clause)) eqn:Hi.
  - left. split; [now apply str_in_iff | reflexivity].
  - apply str_in_false_iff in Hi.
    destruct (str_in "liable" (lower clause)) eqn:Hl.
    + right; left. repeat split; auto. now apply str_in_iff.
    + right; right. apply str_in_false_iff in Hl. auto.
Qed.

(** ** Matching blocks stay inside their window *)

Module DifflibFacts.
Import Difflib.

Lemma j2len_pred_bound (alo blo i j : nat) (j2len : list (nat * nat)) :
  row_ok alo blo i j2len -> alo <= i -> blo <= j ->
  j2len_pred j2len j + blo <= j /\ j2len_pred j2len j + alo <= i.
Proof.
  intros Hrow Hi Hj. destruct j as [|j']; simpl; [lia|].
  unfold j2len_get. destruct (find _ j2len) as [kv|] eqn:Hf; [|lia].
  apply find_some in Hf. destruct Hf as [Hin Hkey].
  apply Nat.eqb_eq in Hkey.
  unfold row_ok in Hrow. rewrite Forall_forall in Hrow.
  specialize (Hrow _ Hin). lia.
Qed.

Lemma scan_js_ok (alo blo bhi i : nat) (js : list nat)
      (j2len newj2len : list (nat * nat)) (best : block) :
  alo <= i -> row_ok alo blo i j2len ->
  row_ok alo blo (i + 1) newj2len -> best_ok alo (i + 1) blo bhi best ->
  row_ok alo blo (i + 1) (fst (scan_js js blo bhi i j2len newj2len best))
  /\ best_ok alo (i + 1) blo bhi (snd (scan_js js blo bhi i j2len newj2len best)).
Proof.
  intros Hi Hold. revert newj2len best.
  induction js as [|j js IH]; intros newj2len best Hnew Hbest; simpl; [auto|].
  destruct (j <? blo) eqn:Hlo; [now apply IH|].
  destruct (bhi <=? j) eqn:Hhi; [simpl; auto|].
  apply Nat.ltb_ge in Hlo. apply Nat.leb_gt in Hhi.
  destruct (j2len_pred_bound alo blo i j j2len Hold Hi Hlo) as [Hb Ha].
  apply IH.
  - constructor; [simpl; lia | exact Hnew].
  - destruct (size best <? j2len_pred j2len j + 1); [|exact Hbest].
    unfold best_ok. lia.
Qed.

Lemma best_ok_weaken (alo ahi ahi' blo bhi : nat) (best : block) :
  ahi <= ahi' -> best_ok alo ahi blo bhi best -> best_ok alo ahi' blo bhi best.
Proof. destruct best as [[i j] k]. unfold best_ok. lia. Qed.

Lemma scan_is_ok (a b : list ascii) (alo blo bhi : nat) (n i0 : nat)
      (j2len : list (nat * nat)) (best : block) :
  alo <= i0 -> row_ok alo blo i0 j2len -> best_ok alo i0 blo bhi best ->
  best_ok alo (i0 + n) blo bhi (scan_is a b (seq i0 n) blo bhi j2len best).
Proof.
  revert i0 j2len best. induction n as [|n IH]; intros i0 j2len best Hi Hrow Hbest.
  - simpl. now rewrite Nat.add_0_r.
  - cbn [seq scan_is].
    pose proof (scan_js_ok alo blo bhi i0 (b2j b (elt a i0)) j2len [] best Hi Hrow
                  (Forall_nil _)
                  (best_ok_weaken _ _ _ _ _ _ (Nat.le_add_r i0 1) Hbest)) as [Hr Hb].
    destruct (scan_js (b2j b (elt a i0)) blo bhi i0 j2len [] best) as [row best'].
    simpl in Hr, Hb. replace (i0 + S n) with (S i0 + n) by lia.
    apply IH; [lia | | ]; now replace (S i0) with (i0 + 1) by lia.
Qed.

Lemma extend_left_ok (a b : list ascii) (alo ahi blo bhi fuel : nat) (best : block) :
  best_ok alo ahi blo bhi best ->
  best_ok alo ahi blo bhi (extend_left a b alo blo fuel best).
Proof.
  revert best. induction fuel as [|fuel IH]; intros [[i j] k] H; simpl; [exact H|].
  destruct ((alo <? i) && (blo <? j) && Ascii.eqb (elt a (i - 1)) (elt b (j - 1)))
           eqn:Hc; [|exact H].
  apply andb_true_iff in Hc. destruct Hc as [Hc _].
  apply andb_true_iff in Hc. destruct Hc as [Hi Hj].
  apply Nat.ltb_lt in Hi. apply Nat.ltb_lt in Hj.
  apply IH. unfold best_ok in *. lia.
Qed.

Lemma extend_right_ok (a b : list ascii) (alo ahi blo bhi fuel : nat) (best : block) :
  best_ok alo ahi blo bhi best ->
  best_ok alo ahi blo bhi (extend_right a b ahi bhi fuel best).
Proof.
  revert best. induction fuel as [|fuel IH]; intros [[i j] k] H; simpl; [exact H|].
  destruct ((i + k <? ahi) && (j + k <? bhi)
            && Ascii.eqb (elt a (i + k)) (elt b (j + k))) eqn:Hc; [|exact H].
  apply andb_true_iff in Hc. destruct Hc as [Hc _].
  apply andb_true_iff in Hc. destruct Hc as [Hi Hj].
  apply Nat.ltb_lt in Hi. apply Nat.ltb_lt in Hj.
  apply IH. unfold best_ok in *. lia.
Qed.

Lemma find_longest_match_bounds (a b : list ascii) (alo ahi blo bhi : nat) :
  alo <= ahi -> blo <= bhi ->
  best_ok alo ahi blo bhi (find_longest_match a b alo ahi blo bhi).
Proof.
  intros Ha Hb. unfold find_longest_match.
  apply extend_right_ok, extend_left_ok.
  replace ahi with (alo + (ahi - alo)) at 1 by lia.
  apply scan_is_ok; [lia | constructor | unfold best_ok; lia].
Qed.

(** The fuel handed to [blocks] by [get_matching_blocks] is never used
    up: more fuel gives the same blocks. *)
Lemma blocks_fuel_enough (a b : list ascii) (fuel extra alo ahi blo bhi : nat) :
  alo <= ahi -> blo <= bhi -> ahi - alo < fuel ->
  blocks a b (fuel + extra) alo ahi blo bhi = blocks a b fuel alo ahi blo bhi.
Proof.
  revert alo ahi blo bhi. induction fuel as [|fuel IH];
    intros alo ahi blo bhi Ha Hb Hfuel; [lia|].
  cbn [Nat.add blocks].
  pose proof (find_longest_match_bounds a b alo ahi blo bhi Ha Hb) as Hok.
  destruct (find_longest_match a b alo ahi blo bhi) as [[i j] k].
  unfold best_ok in Hok.
  destruct (k =? 0) eqn:Hk; [reflexivity|]. apply Nat.eqb_neq in Hk.
  rewrite !IH by lia. reflexivity.
Qed.

Lemma get_matching_blocks_fuel (a b : list ascii) (extra : nat) :
  blocks a b (S (List.length a) + extra) 0 (List.length a) 0 (List.length b)
  = get_matching_blocks a b.
Proof. unfold get_matching_blocks. apply blocks_fuel_enough; lia. Qed.

End DifflibFacts.

(** ** Boilerplate detector *)

Lemma Qgtb_iff (x y : Q) : Difflib.Qgtb x y = true <-> (y < x)%Q.
Proof.
  unfold Difflib.Qgtb. rewrite negb_true_iff.
  destruct (Qle_bool x y) eqn:H.
  - apply Qle_bool_iff in H. split; [discriminate | intros Hlt].
    exfalso. exact (Qlt_not_le _ _ Hlt H).
  - split; [intros _ | reflexivity].
    apply Qnot_le_lt. intros Hle. apply Qle_bool_iff in Hle. congruence.
Qed.

Lemma detect_templates_existsb (templates : list string) (clause : string) :
  detect_templates templates clause
  = existsb (fun t => Difflib.Qgtb (Difflib.ratio (lower clause) (lower t))
                                   boilerplate_threshold) templates.
Proof.
  induction templates as [|t ts IH]; simpl; [reflexivity|].
  rewrite IH. now destruct (Difflib.Qgtb _ _).
Qed.

(** C9: [detect_boilerplate] is true exactly when one of the two templates
    has a ratio with the clause (both lowercased) above 0.8, whichever
    template it is and however many qualify; the California clause is
    boilerplate. *)
Theorem detect_boilerplate_any_template (clause : string) :
  List.length boilerplate_templates = 2
  /\ (detect_boilerplate clause = true <->
      exists t, In t boilerplate_templates /\
                (8 # 10 < Difflib.ratio (lower clause) (lower t))%Q)
  /\ (detect_boilerplate clause = false <->
      forall t, In t boilerplate_templates ->
                (Difflib.ratio (lower clause) (lower t) <= 8 # 10)%Q)
  /\ detect_boilerplate
       "This Agreement shall be governed by the laws of the State of California."
     = true.
Proof.
  assert (Htrue : detect_boilerplate clause = true <->
                  exists t, In t boilerplate_templates /\
                            (8 # 10 < Difflib.ratio (lower clause) (lower t))%Q).
  { unfold detect_boilerplate. rewrite detect_templates_existsb, existsb_exists.
    split; intros [t [Hin H]]; exists t; split; auto; now apply Qgtb_iff. }
  split; [reflexivity|]. split; [exact Htrue|]. split; [|vm_compute; reflexivity].
  split.
  - intros Hf t Hin. apply Qnot_lt_le. intros Hlt.
    assert (detect_boilerplate clause = true) by (apply Htrue; eauto). congruence.
  - intros Hall. destruct (detect_boilerplate clause) eqn:Hd; [|reflexivity].
    destruct (proj1 Htrue eq_refl) as [t [Hin Hlt]].
    exfalso. exact (Qlt_not_le _ _ Hlt (Hall t Hin)).
Qed.

(** ** Truncation *)

Lemma agree_upto_take (n : nat) (a b : string) :
  agree_upto n a b <-> take n a = take n b.
Proof.
  unfold agree_upto, take. revert a b; induction n as [|n IH]; intros a b.
  - split; [intros _ | intros _ i Hi; lia]. now destruct a, b.
  - destruct a as [|x a], b as [|y b]; simpl.
    + split; [reflexivity | intros _ i _; reflexivity].
    + split; [intros H; specialize (H 0 (Nat.lt_0_succ _)); discriminate
             | discriminate].
    + split; [intros H; specialize (H 0 (Nat.lt_0_succ _)); discriminate
             | discriminate].
    + split.
      * intros H. pose proof (H 0 (Nat.lt_0_succ _)) as H0. simpl in H0.
        injection H0 as ->. f_equal. apply IH. intros i Hi.
        apply (H (S i)). lia.
      * intros H. injection H as -> H. rewrite <- IH in H.
        intros [|i] Hi; simpl; [reflexivity | apply H; lia].
Qed.

Lemma retained_cons {A : Type} (i : A) (clause : string) (items : list (A * string)) :
  retained ((i, clause) :: items)
  = if kept clause then (i, clause) :: retained items else retained items.
Proof. reflexivity. Qed.

Lemma Forall2_In_l {A B : Type} (R : A -> B -> Prop) (l : list A) (l' : list B) (x : A) :
  Forall2 R l l' -> In x l -> exists y, In y l' /\ R x y.
Proof.
  induction 1 as [|a b l l' Hab _ IH]; intros Hin; [destruct Hin|].
  destruct Hin as [-> | Hin].
  - exists b. split; [now left | exact Hab].
  - destruct (IH Hin) as [y [Hy HR]]. exists y. split; [now right | exact HR].
Qed.

(** ** Numbering of a filtered enumeration *)

Lemma enumerate_bounds {A : Type} (l : list A) (start n : nat) (x : A) :
  In (n, x) (enumerate start l) ->
  start <= n /\ nth_error l (n - start) = Some x.
Proof.
  revert start. induction l as [|y l IH]; intros start Hin; [destruct Hin|].
  destruct Hin as [Heq | Hin].
  - injection Heq as <- <-. rewrite Nat.sub_diag. auto.
  - destruct (IH _ Hin) as [Hle Hnth]. split; [lia|].
    replace (n - start) with (S (n - S start)) by lia. exact Hnth.
Qed.

Lemma retained_In {A : Type} (items : list (A * string)) (ic : A * string) :
  In ic (retained items) <-> In ic items /\ kept (snd ic) = true.
Proof. unfold retained. apply filter_In. Qed.

Lemma retained_enumerate_sorted (l : list string) (start : nat) :
  StronglySorted lt (map fst (retained (enumerate start l))).
Proof.
  revert start. induction l as [|c l IH]; intros start; [constructor|].
  cbn [enumerate]. rewrite retained_cons. destruct (kept c); [|apply IH].
  cbn [map fst]. constructor; [apply IH|].
  apply Forall_forall. intros n Hn. apply in_map_iff in Hn.
  destruct Hn as [[n' c'] [<- Hin]]. apply retained_In in Hin.
  destruct Hin as [Hin _]. apply enumerate_bounds in Hin. simpl. lia.
Qed.

Lemma retained_enumerate_all_kept (l : list string) (start : nat) :
  forallb kept l = true ->
  retained (enumerate start l) = enumerate start (filter kept l).
Proof.
  revert start. induction l as [|c l IH]; intros start H; [reflexivity|].
  simpl in H. apply andb_true_iff in H. destruct H as [Hc Hl].
  cbn [enumerate filter]. rewrite retained_cons, Hc. cbn [enumerate].
  now rewrite IH.
Qed.

(** The [k]-th survivor carries its rank plus the number of entries
    dropped before it. *)
Lemma retained_enumerate_gap (l : list string) (start k n : nat) (c : string) :
  nth_error (retained (enumerate start l)) k = Some (n, c) ->
  n = start + k
      + List.length (filter (fun x => negb (kept x)) (firstn (n - start) l)).
Proof.
  revert start k. induction l as [|x l IH]; intros start k Hk.
  - destruct k; discriminate.
  - assert (Hstep : forall k', nth_error (retained (enumerate (S start) l)) k' = Some (n, c) ->
                               n - start = S (n - S start) /\ S start <= n).
    { intros k' Hk'. apply nth_error_In, retained_In in Hk'.
      destruct Hk' as [Hin _]. apply enumerate_bounds in Hin. lia. }
    cbn [enumerate] in Hk. rewrite retained_cons in Hk.
    destruct (kept x) eqn:Hx.
    + destruct k as [|k]; simpl in Hk.
      * injection Hk as <- <-. rewrite Nat.sub_diag. simpl. lia.
      * destruct (Hstep _ Hk) as [-> Hle]. cbn [firstn filter]. rewrite Hx.
        cbn [negb]. specialize (IH _ _ Hk). lia.
    + destruct (Hstep _ Hk) as [-> Hle]. cbn [firstn filter]. rewrite Hx.
      cbn [negb List.length]. specialize (IH _ _ Hk). lia.
Qed.

Section PipelineFacts.

Context {ext : Collaborators}.

(** C8: clauses that agree on their first 512 characters get the same
    (sentiment, tone) from [analyze_tone], and documents that agree on
    their first 1024 characters get the same summary, the collaborators
    being functions of their input. *)
Theorem truncation_noninterference (a b d e : string)
        (Hclause : agree_upto 512 a b) (Hdoc : agree_upto 1024 d e) :
  analyze_tone a = analyze_tone b /\ summarize d = summarize e.
Proof.
  apply agree_upto_take in Hclause. apply agree_upto_take in Hdoc.
  unfold analyze_tone, summarize. now rewrite Hclause, Hdoc.
Qed.

(** ** Orchestrator *)

(** C5: on the empty document [analyze_document] returns the empty list of
    results and raises nothing, whatever the collaborators do. *)
Theorem analyze_document_empty :
  split_into_clauses "" = [""] /\ analyze_document "" = inr [].
Proof. split; reflexivity. Qed.

Lemma analyze_loop_outcome (items : list (nat * string))
      (results : list ClauseResult) :
  match analyze_loop items results with
  | inr out =>
      exists fresh, out = (results ++ fresh)%list /\
                    Forall2 yields (retained items) fresh
  | inl e =>
      exists before ic after,
        retained items = (before ++ ic :: after)%list /\
        Forall succeeds before /\
        analyze_clause (fst ic) (snd ic) = inl e
  end.
Proof.
  revert results. induction items as [|[i clause] items IH]; intros results.
  - simpl. exists []. split; [now rewrite app_nil_r | constructor].
  - rewrite retained_cons. cbn [analyze_loop]. unfold kept.
    destruct (truthy (strip clause)) eqn:Hk; cbn [negb].
    + destruct (analyze_clause i clause) as [e|r] eqn:Hr; cbn [bind].
      * exists [], (i, clause), (retained items). repeat split; auto.
      * specialize (IH (results ++ [r])%list).
        destruct (analyze_loop items (results ++ [r])%list) as [e|out].
        -- destruct IH as (before & ic & after & Heq & Hpre & Hfail).
           exists ((i, clause) :: before)%list, ic, after.
           split; [simpl; now rewrite Heq|].
           split; [constructor; [now exists r | exact Hpre] | exact Hfail].
        -- destruct IH as (fresh & -> & Hall).
           exists (r :: fresh)%list. split; [now rewrite <- app_assoc|].
           constructor; [exact Hr | exact Hall].
    + apply IH.
Qed.

Lemma analyze_clause_fields (i : nat) (clause : string) (r : ClauseResult) :
  analyze_clause i clause = inr r -> clause_num r = i /\ clause_text r = clause.
Proof.
  unfold analyze_clause. destruct (grade_clause clause) as [imp sc].
  destruct (extract_timeline clause) as [e|ds]; cbn [bind]; [discriminate|].
  destruct (analyze_tone clause) as [e|[s t]]; cbn [bind]; [discriminate|].
  unfold ret. intros H. injection H as <-. split; reflexivity.
Qed.

Lemma analyze_clause_tone_failure (i : nat) (clause : string) (e : exn) :
  analyze_tone clause = inl e -> exists e', analyze_clause i clause = inl e'.
Proof.
  intros Htone. unfold analyze_clause. destruct (grade_clause clause) as [imp sc].
  destruct (extract_timeline clause) as [e'|ds]; cbn [bind]; [now exists e'|].
  rewrite Htone. cbn [bind]. now exists e.
Qed.

Lemma yields_pairs (items : list (nat * string)) (results : list ClauseResult) :
  Forall2 yields items results ->
  map (fun r => (clause_num r, clause_text r)) results = items.
Proof.
  induction 1 as [|[i c] r items results Hy _ IH]; [reflexivity|].
  apply analyze_clause_fields in Hy. simpl in Hy. destruct Hy as [<- <-].
  simpl. now rewrite IH.
Qed.

Lemma analyze_document_outcome (text : string) :
  match analyze_document text with
  | inr results =>
      Forall2 yields (retained (enumerate 1 (split_into_clauses text))) results
  | inl e =>
      exists before ic after,
        retained (enumerate 1 (split_into_clauses text))
        = (before ++ ic :: after)%list /\
        Forall succeeds before /\
        analyze_clause (fst ic) (snd ic) = inl e
  end.
Proof.
  unfold analyze_document.
  pose proof (analyze_loop_outcome (enumerate 1 (split_into_clauses text)) []) as H.
  destruct (analyze_loop _ _) as [e|out]; [exact H|].
  destruct H as (fresh & -> & Hall). exact Hall.
Qed.

Lemma analyze_document_pairs (text : string) (results : list ClauseResult) :
  analyze_document text = inr results ->
  map (fun r => (clause_num r, clause_text r)) results
  = retained (enumerate 1 (split_into_clauses text)).
Proof.
  intros Hrun. pose proof (analyze_document_outcome text) as H.
  rewrite Hrun in H. now apply yields_pairs.
Qed.

(** C4: [analyze_document] is all or nothing.  It returns either one
    result for every retained clause, in order, or the exception raised by
    the first retained clause whose analysis fails, the clauses before it
    having been analysed successfully and their results being dropped; so a
    failure of any per-clause step, and of [analyze_tone] in particular, on
    any retained clause makes the whole call fail. *)
Theorem analyze_document_all_or_nothing (text : string) :
  let clauses := retained (enumerate 1 (split_into_clauses text)) in
  match analyze_document text with
  | inr results => Forall2 yields clauses results
  | inl e =>
      exists before ic after,
        clauses = (before ++ ic :: after)%list /\
        Forall succeeds before /\
        analyze_clause (fst ic) (snd ic) = inl e
  end
  /\ (forall i clause e,
        In (i, clause) clauses -> analyze_clause i clause = inl e ->
        exists e', analyze_document text = inl e')
  /\ (forall i clause e,
        In (i, clause) clauses -> analyze_tone clause = inl e ->
        exists e', analyze_document text = inl e').
Proof.
  intros clauses. pose proof (analyze_document_outcome text) as H.
  fold clauses in H.
  assert (Hstep : forall i clause e,
             In (i, clause) clauses -> analyze_clause i clause = inl e ->
             exists e', analyze_document text = inl e').
  { intros i clause e Hin Hfail.
    destruct (analyze_document text) as [e'|results]; [now exists e'|].
    destruct (Forall2_In_l _ _ _ _ H Hin) as [r [_ Hy]].
    unfold yields in Hy. simpl in Hy. congruence. }
  split; [exact H|]. split; [exact Hstep|].
  intros i clause e Hin Htone.
  destruct (analyze_clause_tone_failure i clause e Htone) as [e' He'].
  exact (Hstep i clause e' Hin He').
Qed.

(** C1, amended: the [clause_num] values of the output are the 1-based
    positions, in the full output of [split_into_clauses], of the retained
    clauses, in order; they are 1, 2, 3, ... without gaps when no entry of
    that output is empty after stripping. *)
Theorem clause_numbers_are_split_positions (text : string)
        (results : list ClauseResult)
        (Hrun : analyze_document text = inr results) :
  map clause_num results
  = map fst (retained (enumerate 1 (split_into_clauses text)))
  /\ (forallb kept (split_into_clauses text) = true ->
      map clause_num results = sequential_indices text).
Proof.
  apply analyze_document_pairs in Hrun.
  assert (H : map clause_num results
              = map fst (retained (enumerate 1 (split_into_clauses text)))).
  { rewrite <- Hrun, map_map. reflexivity. }
  split; [exact H|]. intros Hall. rewrite H. unfold sequential_indices.
  now rewrite retained_enumerate_all_kept.
Qed.

(** C10: the [clause_num] values of the output increase strictly; each is
    the 1-based position of its clause in the full output of
    [split_into_clauses], dropped entries included, so the result of rank
    [k] (from 0) is numbered [k + 1] plus the number of entries dropped
    before it: a dropped entry leaves a gap. *)
Theorem clause_numbers_keep_gaps (text : string) (results : list ClauseResult)
        (Hrun : analyze_document text = inr results) :
  StronglySorted lt (map clause_num results)
  /\ Forall (fun r =>
               1 <= clause_num r /\
               nth_error (split_into_clauses text) (clause_num r - 1)
               = Some (clause_text r)) results
  /\ forall k r,
       nth_error results k = Some r ->
       clause_num r
       = S k + List.length (filter (fun c => negb (kept c))
                                   (firstn (clause_num r - 1)
                                           (split_into_clauses text))).
Proof.
  apply analyze_document_pairs in Hrun.
  set (clauses := split_into_clauses text) in *.
  split; [|split].
  - replace (map clause_num results)
      with (map fst (retained (enumerate 1 clauses)))
      by (rewrite <- Hrun, map_map; reflexivity).
    apply retained_enumerate_sorted.
  - apply Forall_forall. intros r Hr.
    assert (Hin : In (clause_num r, clause_text r) (retained (enumerate 1 clauses))).
    { rewrite <- Hrun. apply in_map_iff. now exists r. }
    apply retained_In in Hin. destruct Hin as [Hin _].
    now apply enumerate_bounds in Hin.
  - intros k r Hk.
    assert (Hnth : nth_error (retained (enumerate 1 clauses)) k
                   = Some (clause_num r, clause_text r)).
    { rewrite <- Hrun, nth_error_map, Hk. reflexivity. }
    apply retained_enumerate_gap in Hnth. exact Hnth.
Qed.

End PipelineFacts.

(** ** Clause splitter *)

Lemma plus_sound (p : ascii -> bool) (s : string) (n : nat) (k : Re.cont) (m : nat) :
  Re.plus p s n k = Some m ->
  exists run c rest,
    s = run ++ String c rest /\ all_chars p run = true /\ p c = true /\
    k (Some c) rest (n + S (length run)) = Some m.
Proof.
  revert n. induction s as [|c s IH]; intros n H; [discriminate|].
  cbn [Re.plus] in H. destruct (p c) eqn:Hc; [|discriminate].
  destruct (Re.plus p s (S n) k) as [m'|] eqn:Hrec.
  - injection H as <-. destruct (IH _ Hrec) as (run & c' & rest & -> & Hrun & Hc' & Hk).
    exists (String c run), c', rest. repeat split; auto.
    + simpl. now rewrite Hc, Hrun.
    + rewrite <- Hk. f_equal. simpl. lia.
  - exists EmptyString, c, s. repeat split; auto.
    rewrite <- H. f_equal. simpl. lia.
Qed.

Lemma is_char_eq (x c : ascii) : is_char x c = true -> c = x.
Proof. unfold is_char. intros H. apply Ascii.eqb_eq in H. congruence. Qed.

Lemma AZ_not_space (c : ascii) : is_AZ c = true -> isspace c = false.
Proof.
  unfold is_AZ, isspace, between. intros H.
  apply andb_true_iff in H. destruct H as [H1 H2].
  apply Nat.leb_le in H1. apply Nat.leb_le in H2.
  repeat (apply orb_false_iff; split);
    try (apply andb_false_iff; right; apply Nat.leb_gt; lia);
    apply Nat.eqb_neq; lia.
Qed.

Lemma lstrip_run (run rest : string) :
  all_chars isspace run = true -> lstrip (run ++ rest) = lstrip rest.
Proof.
  induction run as [|c run IH]; simpl; [reflexivity|].
  intros H. apply andb_true_iff in H. destruct H as [-> H]. auto.
Qed.

Lemma somewhere_here (p : string -> bool) (s : string) :
  p s = true -> somewhere p s = true.
Proof. intros H. destruct s; simpl; [exact H | now rewrite H]. Qed.

Lemma somewhere_tail (p : string -> bool) (c : ascii) (s : string) :
  somewhere p s = true -> somewhere p (String c s) = true.
Proof. intros H. simpl. rewrite H. apply orb_true_r. Qed.

Lemma somewhere_app_l (p : string -> bool) (pre s : string) :
  somewhere p s = true -> somewhere p (pre ++ s) = true.
Proof.
  intros H. induction pre as [|c pre IH]; simpl; [exact H|].
  rewrite IH. apply orb_true_r.
Qed.

Lemma somewhere_app_r (p : string -> bool) (s post : string) :
  (forall x y, p x = true -> p (x ++ y) = true) ->
  somewhere p s = true -> somewhere p (s ++ post) = true.
Proof.
  intros Hext. induction s as [|c s IH]; intros H.
  - simpl in H. apply somewhere_here. exact (Hext EmptyString post H).
  - cbn [somewhere] in H. apply orb_true_iff in H. destruct H as [H|H].
    + apply somewhere_here. exact (Hext _ post H).
    + change (String c s ++ post) with (String c (s ++ post)).
      apply somewhere_tail. auto.
Qed.

Lemma somewhere_before_cursor (p : string -> bool) (prev : option ascii) (s : string) :
  somewhere p s = true -> somewhere p (before_cursor prev s) = true.
Proof. destruct prev; [apply somewhere_tail | exact (fun H => H)]. Qed.

(** The three alternatives, one at a time: a match is never empty and the
    cursor sits on the marker the alternative stands for. *)

Lemma sentence_break_sound (prev : option ascii) (s : string) (m : nat) :
  Re.match_here sentence_break prev s = Some m ->
  1 <= m /\ prev = Some "."%char /\ at_sentence_break (before_cursor prev s) = true.
Proof.
  unfold Re.match_here, sentence_break. cbn [Re.exec]. intros H.
  destruct prev as [c|]; [|discriminate].
  destruct (is_char "." c) eqn:Hdot; [|discriminate].
  apply is_char_eq in Hdot. subst c.
  apply plus_sound in H. destruct H as (run & w & rest & -> & Hrun & Hw & Hk).
  destruct rest as [|u rest]; [discriminate|].
  destruct (is_AZ u) eqn:Hu; [|discriminate]. injection Hk as <-.
  split; [lia|]. split; [reflexivity|]. cbn [before_cursor].
  pose proof (AZ_not_space u Hu) as Hns.
  assert (Hl : lstrip (String w (String u rest)) = String u rest).
  { simpl. now rewrite Hw, Hns. }
  destruct run as [|w0 run]; cbn [append at_sentence_break].
  - rewrite Hw. simpl. now rewrite Hns, Hu.
  - simpl in Hrun. apply andb_true_iff in Hrun. destruct Hrun as [Hw0 Hrun].
    rewrite Hw0, (lstrip_run _ _ Hrun), Hl. simpl. exact Hu.
Qed.

Lemma newline_sound (prev : option ascii) (s : string) (m : nat) :
  Re.match_here newline prev s = Some m -> m = 1 /\ at_newline s = true.
Proof.
  unfold Re.match_here, newline. cbn [Re.exec]. intros H.
  destruct s as [|c s]; [discriminate|].
  destruct (is_char "010" c) eqn:Hnl; [|discriminate].
  injection H as <-. split; [reflexivity | exact Hnl].
Qed.

Lemma enumeration_sound (prev : option ascii) (s : string) (m : nat) :
  Re.match_here enumeration prev s = Some m ->
  3 <= m /\ somewhere (at_enumeration isspace) s = true.
Proof.
  unfold Re.match_here, enumeration. cbn [Re.exec]. intros H.
  apply plus_sound in H. destruct H as (run & d & rest & -> & Hrun & Hd & Hk).
  destruct rest as [|dot rest]; [discriminate|].
  destruct (is_char "." dot) eqn:Hdot; [|discriminate].
  apply plus_sound in Hk. destruct Hk as (run' & w & rest' & -> & Hrun' & Hw & Hk).
  injection Hk as <-. split; [lia|].
  apply somewhere_app_l, somewhere_here.
  cbn [at_enumeration]. rewrite Hd, Hdot. simpl.
  destruct run' as [|w0 run']; simpl; [exact Hw|].
  simpl in Hrun'. apply andb_true_iff in Hrun'. tauto.
Qed.

(** A match of the boundary pattern at the cursor is never empty and sits
    on a boundary marker. *)
Lemma clause_boundary_sound (prev : option ascii) (s : string) (m : nat) :
  Re.match_here clause_boundary prev s = Some m ->
  1 <= m /\ has_marker_dot_ws (before_cursor prev s) = true.
Proof.
  unfold Re.match_here, clause_boundary, has_marker_dot_ws, has_marker.
  cbn [Re.exec]. intros H.
  destruct (Re.exec sentence_break prev s 0 _) as [m1|] eqn:H1.
  - injection H as <-. apply sentence_break_sound in H1.
    destruct H1 as (Hm & _ & Hat). split; [exact Hm|].
    now rewrite (somewhere_here _ _ Hat).
  - clear H1. destruct (Re.exec newline prev s 0 _) as [m2|] eqn:H2.
    + injection H as <-. apply newline_sound in H2. destruct H2 as [-> Hat].
      split; [lia|].
      rewrite (somewhere_before_cursor _ prev _ (somewhere_here _ _ Hat)).
      now rewrite orb_true_r.
    + clear H2. apply enumeration_sound in H. destruct H as [Hm Hat].
      split; [lia|].
      rewrite (somewhere_before_cursor _ prev _ Hat). now rewrite orb_true_r.
Qed.

Lemma lstrip_suffix (s : string) : exists pre, s = pre ++ lstrip s.
Proof.
  induction s as [|c s [pre IH]]; simpl.
  - now exists EmptyString.
  - destruct (isspace c).
    + exists (String c pre). simpl. now rewrite <- IH.
    + now exists EmptyString.
Qed.

Lemma rstrip_prefix (s : string) : exists post, s = rstrip s ++ post.
Proof.
  induction s as [|c s [post IH]]; simpl.
  - now exists EmptyString.
  - destruct (rstrip s) as [|c' t] eqn:Hr.
    + destruct (isspace c).
      * exists (String c s). reflexivity.
      * exists post. simpl. now rewrite IH at 1.
    + exists post. simpl. now rewrite IH at 1.
Qed.

Lemma strip_infix (s : string) : exists pre post, s = pre ++ strip s ++ post.
Proof.
  unfold strip. destruct (lstrip_suffix s) as [pre Hpre].
  destruct (rstrip_prefix (lstrip s)) as [post Hpost].
  exists pre, post. now rewrite <- Hpost.
Qed.

Lemma lstrip_app (s t : string) (u : ascii) (x : string) :
  lstrip s = String u x -> lstrip (s ++ t) = String u (x ++ t).
Proof.
  induction s as [|c s IH]; simpl; [discriminate|].
  destruct (isspace c); [exact IH|].
  intros H. injection H as -> ->. reflexivity.
Qed.

Lemma at_sentence_break_app (s t : string) :
  at_sentence_break s = true -> at_sentence_break (s ++ t) = true.
Proof.
  destruct s as [|dot [|w rest]]; try discriminate.
  cbn [append at_sentence_break]. intros H.
  apply andb_true_iff in H. destruct H as [-> H].
  destruct (lstrip rest) as [|u x] eqn:Hl; [discriminate|].
  now rewrite (lstrip_app _ t _ _ Hl).
Qed.

Lemma at_newline_app (s t : string) :
  at_newline s = true -> at_newline (s ++ t) = true.
Proof. destruct s; [discriminate | exact (fun H => H)]. Qed.

Lemma at_enumeration_app (ws : ascii -> bool) (s t : string) :
  at_enumeration ws s = true -> at_enumeration ws (s ++ t) = true.
Proof. destruct s as [|d [|dot [|w rest]]]; try discriminate. exact (fun H => H). Qed.

Lemma has_marker_infix (ws : ascii -> bool) (pre s post : string) :
  has_marker ws s = true -> has_marker ws (pre ++ s ++ post) = true.
Proof.
  unfold has_marker. intros H.
  apply orb_true_iff in H. destruct H as [H|H];
    [apply orb_true_iff in H; destruct H as [H|H]|].
  - apply orb_true_iff; left. apply orb_true_iff; left.
    apply somewhere_app_l, somewhere_app_r; [apply at_sentence_break_app | exact H].
  - apply orb_true_iff; left. apply orb_true_iff; right.
    apply somewhere_app_l, somewhere_app_r; [apply at_newline_app | exact H].
  - apply orb_true_iff; right.
    apply somewhere_app_l, somewhere_app_r; [apply at_enumeration_app | exact H].
Qed.

Lemma append_nil_r (s : string) : s ++ EmptyString = s.
Proof. induction s as [|c s IH]; simpl; [reflexivity | now rewrite IH]. Qed.

Lemma has_marker_tail (ws : ascii -> bool) (c : ascii) (s : string) :
  has_marker ws (String c s) = false -> has_marker ws s = false.
Proof.
  intros H. destruct (has_marker ws s) eqn:Hs; [|reflexivity].
  apply (has_marker_infix ws (String c EmptyString) s EmptyString) in Hs.
  rewrite append_nil_r in Hs. simpl in Hs. congruence.
Qed.

Lemma split_from_nonempty (r : Re.regex) (skip : nat) (prev : option ascii)
      (s : string) :
  1 <= List.length (Re.split_from r skip prev s).
Proof.
  revert skip prev. induction s as [|c s IH]; intros skip prev; simpl; [lia|].
  destruct skip as [|j]; [|apply IH].
  assert (Hpush : 1 <= List.length (Re.push_char c (Re.split_from r 0 (Some c) s))).
  { destruct (Re.split_from r 0 (Some c) s); simpl; lia. }
  destruct (Re.match_here r prev (String c s)) as [[|j]|]; simpl; auto; lia.
Qed.

(** Without a marker between the cursor's left neighbour and the end, the
    scan cuts nowhere. *)
Lemma split_from_unmarked (prev : option ascii) (s : string) :
  has_marker_dot_ws (before_cursor prev s) = false ->
  Re.split_from clause_boundary 0 prev s = [s].
Proof.
  revert prev. induction s as [|c s IH]; intros prev Hfree; [reflexivity|].
  cbn [Re.split_from].
  assert (Htail : has_marker_dot_ws (before_cursor (Some c) s) = false).
  { destruct prev; cbn [before_cursor] in *; [|exact Hfree].
    exact (has_marker_tail _ _ _ Hfree). }
  rewrite (IH _ Htail).
  destruct (Re.match_here clause_boundary prev (String c s)) as [[|j]|] eqn:Hm;
    try reflexivity.
  apply clause_boundary_sound in Hm. destruct Hm as [_ Hm]. congruence.
Qed.

Lemma clause_boundary_nonempty (prev : option ascii) (s : string) :
  Re.match_here clause_boundary prev s <> Some 0.
Proof. intros H. apply clause_boundary_sound in H. lia. Qed.

(** C6, amended: [split_into_clauses] always returns at least one clause,
    and a document that holds no boundary marker (a period, whitespace and
    a capital letter; a newline; digits, a period and a whitespace
    character) is returned as the single clause made of the stripped
    document. *)
Theorem split_into_clauses_unmarked (text : string) :
  1 <= List.length (split_into_clauses text)
  /\ (has_marker_dot_ws text = false -> split_into_clauses text = [strip text]).
Proof.
  split; [apply split_from_nonempty|].
  intros Hfree. unfold split_into_clauses, Re.split.
  apply split_from_unmarked. cbn [before_cursor].
  destruct (has_marker_dot_ws (strip text)) eqn:Hs; [|reflexivity].
  destruct (strip_infix text) as (pre & post & Heq).
  rewrite Heq in Hfree. unfold has_marker_dot_ws in *.
  now rewrite has_marker_infix in Hfree.
Qed.

(** ** The pipeline on sample documents *)

(** C1 as worded fails: in "Alpha", blank line, "Beta" the splitter yields
    an empty second entry, and the two results are numbered 1 and 3 where
    a fresh numbering of the survivors gives 1 and 2. *)
Lemma contiguous_numbering_fails_on_blank_line :
  ~ contiguous_numbering (ext := demo) doc_blank_line.
Proof.
  intros H. specialize (H (demo_results doc_blank_line) eq_refl).
  vm_compute in H. discriminate H.
Qed.

Lemma clause_numbers_are_split_positions_witness :
  analyze_document (ext := demo) doc_blank_line = inr (demo_results doc_blank_line)
  /\ map clause_num (demo_results doc_blank_line) = [1; 3]
  /\ map clause_num (demo_results doc_blank_line)
     = map fst (retained (enumerate 1 (split_into_clauses doc_blank_line))).
Proof.
  split; [reflexivity|]. split; [reflexivity|].
  apply (clause_numbers_are_split_positions (ext := demo) doc_blank_line).
  reflexivity.
Defined.

Lemma clause_numbers_keep_gaps_witness :
  analyze_document (ext := demo) doc_blank_line = inr (demo_results doc_blank_line)
  /\ split_into_clauses doc_blank_line = ["Alpha"; ""; "Beta"]
  /\ map clause_num (demo_results doc_blank_line) = [1; 3]
  /\ StronglySorted lt (map clause_num (demo_results doc_blank_line)).
Proof.
  split; [reflexivity|]. split; [reflexivity|]. split; [reflexivity|].
  apply (clause_numbers_keep_gaps (ext := demo) doc_blank_line).
  reflexivity.
Defined.

Lemma analyze_document_all_or_nothing_witness :
  In (2, "Beta!") (retained (enumerate 1 (split_into_clauses doc_failing_second)))
  /\ (exists r, analyze_clause (ext := demo) 1 "Alpha." = inr r)
  /\ analyze_tone (ext := demo) "Beta!"
     = inl (ExternalModelFailure "sentiment model unavailable")
  /\ exists e, analyze_document (ext := demo) doc_failing_second = inl e.
Proof.
  assert (Hin : In (2, "Beta!")
                   (retained (enumerate 1 (split_into_clauses doc_failing_second)))).
  { vm_compute. right; left; reflexivity. }
  assert (Htone : analyze_tone (ext := demo) "Beta!"
                  = inl (ExternalModelFailure "sentiment model unavailable")).
  { reflexivity. }
  split; [exact Hin|]. split; [eexists; reflexivity|]. split; [exact Htone|].
  exact (proj2 (proj2 (analyze_document_all_or_nothing (ext := demo)
                                                       doc_failing_second))
               2 "Beta!" _ Hin Htone).
Defined.

Lemma truncation_noninterference_witness :
  long_clause_a <> long_clause_b
  /\ demo_sentiment long_clause_a <> demo_sentiment long_clause_b
  /\ long_doc_d <> long_doc_e
  /\ analyze_tone (ext := demo) long_clause_a = analyze_tone (ext := demo) long_clause_b
  /\ summarize (ext := demo) long_doc_d = summarize (ext := demo) long_doc_e.
Proof.
  split; [vm_compute; discriminate|].
  split; [vm_compute; discriminate|].
  split; [vm_compute; discriminate|].
  apply (truncation_noninterference (ext := demo)
           long_clause_a long_clause_b long_doc_d long_doc_e);
    apply agree_upto_take; vm_compute; reflexivity.
Defined.

(** C6 as worded fails: "1.", TAB, "foo" holds no period-whitespace-capital
    run, no newline and no digits followed by period and space, yet the
    splitter cuts after the tab and returns two clauses. *)
Lemma tab_enumeration_is_split :
  ~ single_clause_when_unmarked doc_tab_enumeration
  /\ split_into_clauses doc_tab_enumeration = [""; "foo"].
Proof.
  split; [|reflexivity].
  intros H. specialize (H eq_refl). vm_compute in H. discriminate H.
Qed.

Lemma split_into_clauses_unmarked_witness :
  has_marker_dot_ws "  the parties agree to 3.5 days, see Sec.2  " = false
  /\ split_into_clauses "  the parties agree to 3.5 days, see Sec.2  "
     = ["the parties agree to 3.5 days, see Sec.2"].
Proof.
  split; [reflexivity|].
  apply (proj2 (split_into_clauses_unmarked
                  "  the parties agree to 3.5 days, see Sec.2  ")).
  reflexivity.
Defined.


(* ================================================================== *)
(** * Further properties of the analyzer *)

(** ** Lowercasing *)

Lemma lower_char_idem (c : ascii) : lower_char (lower_char c) = lower_char c.
Proof. destruct c as [[] [] [] [] [] [] [] []]; reflexivity. Qed.

Lemma lower_idem (s : string) : lower (lower s) = lower s.
Proof.
  induction s as [|c s IH]; simpl; [reflexivity|].
  now rewrite lower_char_idem, IH.
Qed.

Lemma lower_app (s t : string) : lower (s ++ t) = lower s ++ lower t.
Proof. induction s as [|c s IH]; simpl; [reflexivity | now rewrite IH]. Qed.

Lemma length_lower (s : string) : length (lower s) = length s.
Proof. induction s as [|c s IH]; simpl; [reflexivity | now rewrite IH]. Qed.

Lemma occurs_in_refl (s : string) : occurs_in s s.
Proof. exists EmptyString, EmptyString. simpl. now rewrite append_nil_r. Qed.

Lemma append_assoc (a b c : string) : (a ++ b) ++ c = a ++ (b ++ c).
Proof. induction a as [|x a IH]; simpl; [reflexivity | now rewrite IH]. Qed.

Lemma occurs_in_embed (kw s before after : string) :
  occurs_in kw s -> occurs_in kw (before ++ s ++ after).
Proof.
  intros (p & q & ->). exists (before ++ p), (q ++ after).
  now rewrite !append_assoc.
Qed.

Lemma str_in_embed (kw s before after : string) :
  str_in kw s = true -> str_in kw (before ++ s ++ after) = true.
Proof. rewrite !str_in_iff. apply occurs_in_embed. Qed.

(** ** The keyword heuristics together *)

(** X1: the four per-clause heuristics ignore case: lowercasing a clause
    changes neither its category, nor its grade, nor its boilerplate flag,
    nor its rewrite suggestion. *)
Theorem heuristics_ignore_case (clause : string) :
  classify_clause (lower clause) = classify_clause clause
  /\ grade_clause (lower clause) = grade_clause clause
  /\ detect_boilerplate (lower clause) = detect_boilerplate clause
  /\ rewrite_clause (lower clause) = rewrite_clause clause.
Proof.
  unfold classify_clause, clause_keywords, classify_items, any_keyword,
    grade_clause, detect_boilerplate, boilerplate_templates, detect_templates,
    rewrite_clause.
  rewrite !lower_idem. repeat split.
Qed.

Lemma classify_items_other (items : list (string * list string)) (clause : string) :
  ~ In "Other" (map fst items) ->
  classify_items items clause = "Other" ->
  forall c ks, In (c, ks) items -> any_keyword ks clause = false.
Proof.
  induction items as [|[cat kws] items IH]; intros Hnot Hres c ks Hin;
    [destruct Hin|].
  cbn [classify_items] in Hres. cbn [map fst] in Hnot.
  destruct (any_keyword kws clause) eqn:Hany.
  - exfalso. apply Hnot. left. exact Hres.
  - destruct Hin as [Heq | Hin].
    + injection Heq as <- <-. exact Hany.
    + apply (IH (fun H => Hnot (or_intror H)) Hres c ks Hin).
Qed.

(** X2: the heuristics agree with each other.  A clause that gets a
    rewrite suggestion other than "Clause appears clear." has a risk score
    of at least 1, so an importance other than "Low", and a category
    other than "Other"; a clause categorised "Other" is always reported
    clear. *)
Theorem rewrite_implies_risk (clause : string)
        (Hflag : rewrite_clause clause <> "Clause appears clear.") :
  1 <= snd (grade_clause clause)
  /\ fst (grade_clause clause) <> "Low"
  /\ classify_clause clause <> "Other".
Proof.
  assert (Hkw : str_in "indemnify" (lower clause) = true
                \/ str_in "liable" (lower clause) = true).
  { unfold rewrite_clause in Hflag.
    destruct (str_in "indemnify" (lower clause)); [now left|].
    destruct (str_in "liable" (lower clause)); [now right | congruence]. }
  assert (Hscore : 1 <= snd (grade_clause clause)).
  { unfold grade_clause, risk_keywords. cbn [snd filter].
    destruct Hkw as [H|H]; rewrite H.
    - destruct (str_in "liable" (lower clause)); simpl; lia.
    - simpl; lia. }
  split; [exact Hscore|]. split.
  - unfold grade_clause in *. cbn [fst snd] in *.
    destruct (2 <=? _) eqn:H2; [discriminate|].
    destruct (_ =? 1) eqn:H1; [discriminate|].
    apply Nat.leb_gt in H2. apply Nat.eqb_neq in H1. lia.
  - intros Hother. unfold classify_clause in Hother.
    assert (Hrisk : any_keyword ["liable"; "indemnify"; "at your own risk"] clause
                    = false).
    { apply (classify_items_other clause_keywords clause) with (c := "Risk");
        [ | exact Hother | ].
      - simpl. intuition discriminate.
      - simpl. auto. }
    unfold any_keyword in Hrisk. cbn [existsb] in Hrisk.
    change (lower "liable") with "liable" in Hrisk.
    change (lower "indemnify") with "indemnify" in Hrisk.
    destruct Hkw as [H|H]; rewrite H in Hrisk;
      [destruct (str_in "liable" (lower clause))|]; discriminate.
Qed.

Lemma rewrite_implies_risk_witness :
  rewrite_clause "The Supplier is LIABLE for delay." <> "Clause appears clear."
  /\ 1 <= snd (grade_clause "The Supplier is LIABLE for delay.")
  /\ fst (grade_clause "The Supplier is LIABLE for delay.") <> "Low"
  /\ classify_clause "The Supplier is LIABLE for delay." <> "Other".
Proof.
  assert (H : rewrite_clause "The Supplier is LIABLE for delay."
              <> "Clause appears clear.") by (vm_compute; discriminate).
  split; [exact H|].
  exact (rewrite_implies_risk "The Supplier is LIABLE for delay." H).
Defined.

Lemma filter_length_mono {A : Type} (p q : A -> bool) (l : list A) :
  (forall x, p x = true -> q x = true) ->
  List.length (filter p l) <= List.length (filter q l).
Proof.
  intros Hpq. induction l as [|x l IH]; simpl; [lia|].
  destruct (p x) eqn:Hp.
  - rewrite (Hpq x Hp). simpl. lia.
  - destruct (q x); simpl; lia.
Qed.

Lemma any_keyword_embed (keywords : list string) (clause before after : string) :
  any_keyword keywords clause = true ->
  any_keyword keywords (before ++ clause ++ after) = true.
Proof.
  unfold any_keyword. rewrite !existsb_exists.
  intros [kw [Hin H]]. exists kw. split; [exact Hin|].
  rewrite !lower_app. now apply str_in_embed.
Qed.

(** X3: adding text around a clause never lowers its risk score, never
    turns a categorised clause into "Other", and never removes a rewrite
    suggestion. *)
Theorem heuristics_monotone (clause before after : string) :
  snd (grade_clause clause) <= snd (grade_clause (before ++ clause ++ after))
  /\ (classify_clause clause <> "Other" ->
      classify_clause (before ++ clause ++ after) <> "Other")
  /\ (rewrite_clause clause <> "Clause appears clear." ->
      rewrite_clause (before ++ clause ++ after) <> "Clause appears clear.").
Proof.
  split; [|split].
  - unfold grade_clause. cbn [snd]. apply filter_length_mono.
    intros kw H. rewrite !lower_app. now apply str_in_embed.
  - intros Hcat Hother. apply Hcat. unfold classify_clause in *.
    pose proof (classify_items_other clause_keywords _
                  ltac:(simpl; intuition discriminate) Hother) as Hnone.
    unfold clause_keywords, classify_items.
    repeat match goal with
    | |- context [any_keyword ?ks clause] =>
        let H := fresh in
        destruct (any_keyword ks clause) eqn:H;
        [ apply (any_keyword_embed _ _ before after) in H;
          rewrite (Hnone _ ks ltac:(simpl; auto 6)) in H; discriminate | ]
    end.
    reflexivity.
  - unfold rewrite_clause. rewrite !lower_app. intros H.
    destruct (str_in "indemnify" (lower clause)) eqn:Hi.
    + rewrite (str_in_embed _ _ (lower before) (lower after) Hi). discriminate.
    + destruct (str_in "liable" (lower clause)) eqn:Hl; [|congruence].
      rewrite (str_in_embed _ _ (lower before) (lower after) Hl).
      destruct (str_in "indemnify" (lower before ++ lower clause ++ lower after));
        discriminate.
Qed.

Lemma heuristics_monotone_witness :
  classify_clause "may" <> "Other"
  /\ classify_clause ("Pay" ++ "may" ++ "ent is due.") <> "Other"
  /\ rewrite_clause "liable" <> "Clause appears clear."
  /\ rewrite_clause ("Re" ++ "liable" ++ " partners.") <> "Clause appears clear.".
Proof.
  assert (H1 : classify_clause "may" <> "Other") by (vm_compute; discriminate).
  assert (H2 : rewrite_clause "liable" <> "Clause appears clear.")
    by (vm_compute; discriminate).
  split; [exact H1|]. split.
  - exact (proj1 (proj2 (heuristics_monotone "may" "Pay" "ent is due.")) H1).
  - split; [exact H2|].
    exact (proj2 (proj2 (heuristics_monotone "liable" "Re" " partners.")) H2).
Defined.

(** ** More on stripping *)

Lemma lstrip_head (s : string) :
  match lstrip s with
  | EmptyString => True
  | String c _ => isspace c = false
  end.
Proof.
  induction s as [|c s IH]; simpl; [exact I|].
  destruct (isspace c) eqn:Hc; [exact IH | exact Hc].
Qed.

Lemma lstrip_fixed (s : string) :
  match s with
  | EmptyString => True
  | String c _ => isspace c = false
  end -> lstrip s = s.
Proof. destruct s as [|c s]; simpl; [reflexivity | now intros ->]. Qed.

Lemma rstrip_cons (c : ascii) (s : string) :
  rstrip (String c s)
  = match rstrip s with
    | EmptyString => if isspace c then EmptyString else String c EmptyString
    | String a t => String c (String a t)
    end.
Proof. reflexivity. Qed.

Lemma rstrip_idem (s : string) : rstrip (rstrip s) = rstrip s.
Proof.
  induction s as [|c s IH]; [reflexivity|]. rewrite rstrip_cons.
  destruct (rstrip s) as [|c' t] eqn:Hr.
  - destruct (isspace c) eqn:Hc; [reflexivity|]. simpl. now rewrite Hc.
  - rewrite rstrip_cons, IH. reflexivity.
Qed.

Lemma rstrip_keeps_head (c : ascii) (s : string) :
  isspace c = false -> exists t, rstrip (String c s) = String c t.
Proof.
  intros Hc. rewrite rstrip_cons. destruct (rstrip s) as [|c' t].
  - rewrite Hc. now exists EmptyString.
  - now exists (String c' t).
Qed.

Lemma strip_idem (s : string) : strip (strip s) = strip s.
Proof.
  unfold strip. pose proof (lstrip_head s) as Hh.
  destruct (lstrip s) as [|c t]; [reflexivity|].
  destruct (rstrip_keeps_head c t Hh) as [t' Ht'].
  rewrite Ht'. cbn [lstrip]. rewrite Hh, <- Ht'. apply rstrip_idem.
Qed.

Lemma lstrip_blank (s : string) :
  all_chars isspace s = true -> lstrip s = EmptyString.
Proof.
  induction s as [|c s IH]; simpl; [reflexivity|].
  intros H. apply andb_true_iff in H. destruct H as [-> H]. auto.
Qed.

Lemma strip_blank (s : string) :
  all_chars isspace s = true -> strip s = EmptyString.
Proof. intros H. unfold strip. now rewrite (lstrip_blank s H). Qed.

(** ** What the splitter removes and what it keeps *)

Lemma all_chars_app (p : ascii -> bool) (s t : string) :
  all_chars p (s ++ t) = all_chars p s && all_chars p t.
Proof.
  induction s as [|c s IH]; simpl; [reflexivity|].
  now rewrite IH, andb_assoc.
Qed.

Lemma all_chars_weaken (p q : ascii -> bool) (s : string) :
  (forall c, p c = true -> q c = true) ->
  all_chars p s = true -> all_chars q s = true.
Proof.
  intros Hpq. induction s as [|c s IH]; simpl; [reflexivity|].
  intros H. apply andb_true_iff in H. destruct H as [Hc Hs].
  now rewrite (Hpq c Hc), IH.
Qed.

Lemma length_app (s t : string) : length (s ++ t) = length s + length t.
Proof. induction s as [|c s IH]; simpl; [reflexivity | now rewrite IH]. Qed.

Lemma space_is_sep (c : ascii) : isspace c = true -> sep_char c = true.
Proof. unfold sep_char. now intros ->. Qed.

Lemma digit_is_sep (c : ascii) : isdecimal c = true -> sep_char c = true.
Proof. unfold sep_char. intros ->. now rewrite orb_true_r. Qed.

Lemma dot_is_sep (c : ascii) : is_char "." c = true -> sep_char c = true.
Proof. unfold sep_char. intros ->. now rewrite !orb_true_r. Qed.

(** The text consumed by a match of the boundary pattern. *)
Lemma clause_boundary_consumes (prev : option ascii) (s : string) (m : nat) :
  Re.match_here clause_boundary prev s = Some m ->
  exists sep rest,
    s = sep ++ rest /\ length sep = m /\ all_chars sep_char sep = true.
Proof.
  unfold Re.match_here, clause_boundary. cbn [Re.exec]. intros H.
  destruct (Re.exec sentence_break prev s 0 _) as [m1|] eqn:H1.
  - injection H as <-. unfold sentence_break in H1. cbn [Re.exec] in H1.
    destruct prev as [c|]; [|discriminate].
    destruct (is_char "." c); [|discriminate].
    apply plus_sound in H1. destruct H1 as (run & w & rest & -> & Hrun & Hw & Hk).
    destruct rest as [|u rest]; [discriminate|].
    destruct (is_AZ u); [|discriminate]. injection Hk as <-.
    exists (run ++ String w EmptyString), (String u rest).
    split; [now rewrite append_assoc|]. split.
    + rewrite length_app. simpl. lia.
    + rewrite all_chars_app. simpl.
      rewrite (all_chars_weaken _ _ _ space_is_sep Hrun), (space_is_sep _ Hw).
      reflexivity.
  - clear H1. destruct (Re.exec newline prev s 0 _) as [m2|] eqn:H2.
    + injection H as <-. unfold newline in H2. cbn [Re.exec] in H2.
      destruct s as [|c s]; [discriminate|].
      destruct (is_char "010" c) eqn:Hnl; [|discriminate]. injection H2 as <-.
      exists (String c EmptyString), s. repeat split.
      apply is_char_eq in Hnl. now subst c.
    + clear H2. unfold enumeration in H. cbn [Re.exec] in H.
      apply plus_sound in H. destruct H as (run & d & rest & -> & Hrun & Hd & Hk).
      destruct rest as [|dot rest]; [discriminate|].
      destruct (is_char "." dot) eqn:Hdot; [|discriminate].
      apply plus_sound in Hk.
      destruct Hk as (run' & w & rest' & -> & Hrun' & Hw & Hk). injection Hk as <-.
      exists (run ++ String d (String dot (run' ++ String w EmptyString))), rest'.
      split; [|split].
      * rewrite append_assoc. simpl. now rewrite append_assoc.
      * rewrite length_app. simpl. rewrite length_app. simpl. lia.
      * rewrite all_chars_app. simpl. rewrite all_chars_app. simpl.
        rewrite (all_chars_weaken _ _ _ digit_is_sep Hrun), (digit_is_sep _ Hd),
          (dot_is_sep _ Hdot), (all_chars_weaken _ _ _ space_is_sep Hrun'),
          (space_is_sep _ Hw).
        reflexivity.
Qed.

Lemma drop_app_length (sep rest : string) : drop (length sep) (sep ++ rest) = rest.
Proof.
  induction sep as [|c sep IH]; simpl; [now destruct rest | exact IH].
Qed.

Lemma drop_0 (s : string) : drop 0 s = s.
Proof. reflexivity. Qed.

Lemma weave_push (c : ascii) (pieces seps : list string) :
  pieces <> [] ->
  weave (Re.push_char c pieces) seps = String c (weave pieces seps).
Proof.
  destruct pieces as [|p ps]; [congruence|]. intros _.
  destruct seps; reflexivity.
Qed.

Lemma split_from_weave (skip : nat) (prev : option ascii) (s : string) :
  skip <= length s ->
  exists seps,
    List.length (Re.split_from clause_boundary skip prev s) = S (List.length seps)
    /\ weave (Re.split_from clause_boundary skip prev s) seps = drop skip s
    /\ Forall separator seps.
Proof.
  revert skip prev. induction s as [|c s IH]; intros skip prev Hskip.
  - simpl in Hskip. replace skip with 0 by lia. exists []. repeat split. constructor.
  - cbn [Re.split_from]. destruct skip as [|j].
    + destruct (Re.match_here clause_boundary prev (String c s)) as [[|j]|] eqn:Hm.
      * apply clause_boundary_nonempty in Hm. destruct Hm.
      * apply clause_boundary_consumes in Hm.
        destruct Hm as (sep & rest & Heq & Hlen & Hsep).
        destruct sep as [|c' sep]; [discriminate|].
        simpl in Heq, Hlen. injection Heq as <- ->. injection Hlen as <-.
        destruct (IH (length sep) (Some c)) as (seps & Hn & Hw & Hall).
        { rewrite length_app. lia. }
        exists (String c sep :: seps). split; [simpl; now rewrite Hn|]. split.
        -- cbn [weave]. rewrite Hw, drop_app_length. reflexivity.
        -- constructor; [|exact Hall]. split; [discriminate | exact Hsep].
      * destruct (IH 0 (Some c)) as (seps & Hn & Hw & Hall); [lia|].
        exists seps. split; [|split; [|exact Hall]].
        -- destruct (Re.split_from clause_boundary 0 (Some c) s); simpl in *; lia.
        -- rewrite weave_push; [now rewrite Hw|].
           intros Hnil. rewrite Hnil in Hn. discriminate.
    + simpl in Hskip. destruct (IH j (Some c)) as (seps & Hn & Hw & Hall); [lia|].
      exists seps. auto.
Qed.

(** X4: [split_into_clauses] loses nothing but separators.  The clauses,
    put back in order with one separator between neighbours, give the
    stripped document, and every separator is a non-empty run of
    whitespace, digits and periods: letters are never dropped, numbers of
    an enumeration are. *)
Theorem split_into_clauses_weave (text : string) :
  exists seps,
    List.length (split_into_clauses text) = S (List.length seps)
    /\ weave (split_into_clauses text) seps = strip text
    /\ Forall (fun sep => sep <> EmptyString /\ all_chars sep_char sep = true) seps.
Proof.
  unfold split_into_clauses, Re.split.
  destruct (split_from_weave 0 None (strip text) (Nat.le_0_l _)) as (seps & H).
  exists seps. exact H.
Qed.

Lemma newline_is_cut (prev : option ascii) (s : string) :
  exists j, Re.match_here clause_boundary prev (String "010" s) = Some (S j).
Proof.
  destruct (Re.match_here clause_boundary prev (String "010" s)) as [m|] eqn:Hm.
  - pose proof (clause_boundary_sound _ _ _ Hm) as [Hpos _].
    destruct m as [|j]; [lia | now exists j].
  - exfalso. unfold Re.match_here, clause_boundary in Hm. cbn [Re.exec] in Hm.
    destruct (Re.exec sentence_break prev _ 0 _); [discriminate|].
    unfold newline in Hm. cbn [Re.exec] in Hm. simpl in Hm. discriminate.
Qed.

Lemma push_char_no_newline (c : ascii) (pieces : list string) :
  is_char "010" c = false ->
  Forall (fun clause => no_newline clause = true) pieces ->
  Forall (fun clause => no_newline clause = true) (Re.push_char c pieces).
Proof.
  intros Hc Hall. unfold Re.push_char.
  destruct Hall as [|p ps Hp Hps]; constructor; auto;
    unfold no_newline in *; cbn [all_chars]; rewrite Hc; auto.
Qed.

Lemma split_from_no_newline (skip : nat) (prev : option ascii) (s : string) :
  Forall (fun clause => no_newline clause = true)
         (Re.split_from clause_boundary skip prev s).
Proof.
  revert skip prev. induction s as [|c s IH]; intros skip prev.
  - repeat constructor.
  - cbn [Re.split_from]. destruct skip as [|j]; [|apply IH].
    destruct (Re.match_here clause_boundary prev (String c s)) as [[|j]|] eqn:Hm.
    + apply clause_boundary_nonempty in Hm. destruct Hm.
    + constructor; [reflexivity | apply IH].
    + apply push_char_no_newline; [|apply IH].
      destruct (is_char "010" c) eqn:Hc; [|reflexivity].
      apply is_char_eq in Hc. subst c.
      destruct (newline_is_cut prev s) as [j' Hj]. congruence.
Qed.

(** X5: no clause returned by [split_into_clauses] holds a newline: a
    clause never spans two lines of the document. *)
Theorem split_into_clauses_no_newline (text : string) :
  Forall (fun clause => all_chars (fun c => negb (is_char "010" c)) clause = true)
         (split_into_clauses text).
Proof. apply split_from_no_newline. Qed.

(** ** Every marker makes a cut *)

Lemma plus_greedy (p : ascii -> bool) (run rest : string) (n : nat)
      (k : Re.cont) (m : nat) :
  run <> EmptyString -> all_chars p run = true ->
  match rest with
  | EmptyString => True
  | String c _ => p c = false
  end ->
  (forall prev, k prev rest (n + length run) = Some m) ->
  Re.plus p (run ++ rest) n k = Some m.
Proof.
  revert n. induction run as [|c run IH]; intros n Hne Hrun Hstop Hk; [congruence|].
  simpl in Hrun. apply andb_true_iff in Hrun. destruct Hrun as [Hc Hrun].
  change (String c run ++ rest) with (String c (run ++ rest)).
  cbn [Re.plus]. rewrite Hc. destruct run as [|c' run].
  - simpl. replace (Re.plus p rest (S n) k) with (@None nat).
    + rewrite <- (Hk (Some c)). f_equal. simpl. lia.
    + destruct rest as [|x rest]; simpl; [reflexivity | now rewrite Hstop].
  - rewrite (IH (S n)); auto; [discriminate|].
    intros prev. rewrite <- (Hk prev). f_equal. simpl. lia.
Qed.

Lemma plus_final (p : ascii -> bool) (c : ascii) (s : string) (n : nat) :
  p c = true -> exists m, Re.plus p (String c s) n (fun _ _ n' => Some n') = Some m.
Proof.
  intros Hc. cbn [Re.plus]. rewrite Hc.
  destruct (Re.plus p s (S n) _) as [m|]; eauto.
Qed.

Lemma lstrip_split (s : string) :
  exists run, s = run ++ lstrip s /\ all_chars isspace run = true.
Proof.
  induction s as [|c s (run & Heq & Hrun)]; simpl.
  - now exists EmptyString.
  - destruct (isspace c) eqn:Hc.
    + exists (String c run). simpl. now rewrite Hc, Hrun, <- Heq.
    + now exists EmptyString.
Qed.

Lemma sentence_break_complete (p : ascii) (s : string) :
  at_sentence_break (String p s) = true ->
  exists m, Re.match_here clause_boundary (Some p) s = Some m.
Proof.
  intros H. destruct s as [|w rest]; [discriminate|].
  cbn [at_sentence_break] in H.
  apply andb_true_iff in H. destruct H as [H Hup].
  apply andb_true_iff in H. destruct H as [Hdot Hw].
  destruct (lstrip rest) as [|u x] eqn:Hl; [discriminate|].
  destruct (lstrip_split rest) as (run & Heq & Hrun). rewrite Hl in Heq.
  unfold Re.match_here, clause_boundary. cbn [Re.exec].
  assert (Hsb : Re.exec sentence_break (Some p) (String w rest) 0
                  (fun _ _ n => Some n) = Some (S (length run))).
  { unfold sentence_break. cbn [Re.exec]. rewrite Hdot, Heq.
    change (String w (run ++ String u x)) with (String w run ++ String u x).
    apply plus_greedy.
    - discriminate.
    - simpl. now rewrite Hw, Hrun.
    - now apply AZ_not_space.
    - intros prev. now rewrite Hup. }
  rewrite Hsb. eauto.
Qed.

Lemma enumeration_complete (prev : option ascii) (s : string) :
  at_enumeration isspace s = true ->
  exists m, Re.match_here clause_boundary prev s = Some m.
Proof.
  intros H. destruct s as [|d [|dot [|w t]]]; try discriminate.
  cbn [at_enumeration] in H.
  apply andb_true_iff in H. destruct H as [H Hw].
  apply andb_true_iff in H. destruct H as [Hd Hdot].
  unfold Re.match_here, clause_boundary. cbn [Re.exec].
  destruct (Re.exec sentence_break prev _ 0 _) as [m1|]; [eauto|].
  destruct (Re.exec newline prev _ 0 _) as [m2|]; [eauto|].
  destruct (plus_final isspace w t 2 Hw) as [m Hm]. exists m.
  unfold enumeration. cbn [Re.exec].
  change (String d (String dot (String w t)))
    with (String d EmptyString ++ String dot (String w t)).
  apply plus_greedy.
  - discriminate.
  - simpl. now rewrite Hd.
  - apply is_char_eq in Hdot. now subst dot.
  - intros prev'. rewrite Hdot. exact Hm.
Qed.

Lemma push_char_length (c : ascii) (pieces : list string) :
  pieces <> [] -> List.length (Re.push_char c pieces) = List.length pieces.
Proof. destruct pieces; [congruence | reflexivity]. Qed.

Lemma marker_is_cut (prev : option ascii) (s : string) :
  marker_ahead prev s = true ->
  2 <= List.length (Re.split_from clause_boundary 0 prev s).
Proof.
  revert prev. induction s as [|c s IH]; intros prev H.
  - destruct prev; discriminate.
  - cbn [Re.split_from].
    destruct (Re.match_here clause_boundary prev (String c s)) as [[|j]|] eqn:Hm.
    + apply clause_boundary_nonempty in Hm. destruct Hm.
    + pose proof (split_from_nonempty clause_boundary j (Some c) s). simpl. lia.
    + pose proof (split_from_nonempty clause_boundary 0 (Some c) s) as Hne.
      rewrite push_char_length
        by (intros Hnil; rewrite Hnil in Hne; simpl in Hne; lia).
      apply IH. unfold marker_ahead in *.
      apply orb_true_iff in H. destruct H as [H|H].
      * destruct prev as [p|]; [|discriminate].
        destruct (sentence_break_complete p _ H) as [m Hm']. congruence.
      * unfold has_marker_dot_ws, has_marker in *. cbn [somewhere] in H.
        destruct (at_newline (String c s)) eqn:Hnl.
        { cbn [at_newline] in Hnl. apply is_char_eq in Hnl. subst c.
          destruct (newline_is_cut prev s) as [j Hj]. congruence. }
        destruct (at_enumeration isspace (String c s)) eqn:Hen.
        { destruct (enumeration_complete prev _ Hen) as [m Hm']. congruence. }
        destruct (at_sentence_break (String c s)); [reflexivity|].
        simpl in H. rewrite H. apply orb_true_r.
Qed.

(** X6: [split_into_clauses] returns the stripped document as its only
    clause exactly when the stripped document holds no boundary marker (a
    period, whitespace and a capital letter; a newline; a digit, a period
    and a whitespace character); any such marker gives at least two
    clauses. *)
Theorem single_clause_iff_unmarked (text : string) :
  (split_into_clauses text = [strip text]
   <-> has_marker_dot_ws (strip text) = false)
  /\ (has_marker_dot_ws (strip text) = true
      <-> 2 <= List.length (split_into_clauses text)).
Proof.
  assert (Hcut : has_marker_dot_ws (strip text) = true ->
                 2 <= List.length (split_into_clauses text)).
  { intros H. apply marker_is_cut. unfold marker_ahead. now rewrite H. }
  assert (Hone : has_marker_dot_ws (strip text) = false ->
                 split_into_clauses text = [strip text]).
  { intros H. apply split_from_unmarked. exact H. }
  split; split.
  - intros Heq. destruct (has_marker_dot_ws (strip text)) eqn:H; [|reflexivity].
    specialize (Hcut eq_refl). rewrite Heq in Hcut. simpl in Hcut. lia.
  - exact Hone.
  - exact Hcut.
  - intros Hlen. destruct (has_marker_dot_ws (strip text)) eqn:H; [reflexivity|].
    rewrite (Hone eq_refl) in Hlen. simpl in Hlen. lia.
Qed.

(** X7: leading and trailing whitespace of a document never matters: the
    clauses of a document are those of its stripped text, and a document
    made of whitespace only gives the single empty clause. *)
Theorem split_into_clauses_strip (text : string) :
  split_into_clauses (strip text) = split_into_clauses text
  /\ (all_chars isspace text = true -> split_into_clauses text = [EmptyString]).
Proof.
  unfold split_into_clauses. rewrite strip_idem. split; [reflexivity|].
  intros H. now rewrite (strip_blank text H).
Qed.

Lemma split_into_clauses_strip_witness :
  all_chars isspace ("  " ++ TAB ++ NL ++ " ") = true
  /\ split_into_clauses ("  " ++ TAB ++ NL ++ " ") = [EmptyString].
Proof.
  split; [reflexivity|].
  apply (proj2 (split_into_clauses_strip ("  " ++ TAB ++ NL ++ " "))).
  reflexivity.
Defined.

(** ** The first highest score *)

Lemma max_from_first (best : prediction) (l pre mid : list prediction)
      (p : prediction) :
  Forall (fun x => (score x < score best)%Q) pre ->
  Forall (fun x => (score x <= score best)%Q) mid ->
  max_from best l = p ->
  exists before after,
    (pre ++ best :: mid ++ l)%list = (before ++ p :: after)%list
    /\ Forall (fun x => (score x < score p)%Q) before
    /\ Forall (fun x => (score x <= score p)%Q) after.
Proof.
  revert best pre mid. induction l as [|x l IH]; intros best pre mid Hpre Hmid Hmax.
  - simpl in Hmax. subst p. exists pre, mid. now rewrite app_nil_r.
  - cbn [max_from] in Hmax. destruct (Difflib.Qgtb (score x) (score best)) eqn:Hgt.
    + apply Qgtb_iff in Hgt.
      destruct (IH x (pre ++ best :: mid)%list []) as (before & after & Heq & H1 & H2);
        auto.
      * apply Forall_app. split.
        -- eapply Forall_impl; [|exact Hpre]. intros a Ha. simpl in Ha.
           eapply Qlt_trans; eauto.
        -- constructor; [exact Hgt|].
           eapply Forall_impl; [|exact Hmid]. intros a Ha. simpl in Ha.
           eapply Qle_lt_trans; eauto.
      * exists before, after. split; [|auto].
        rewrite <- Heq. rewrite <- !app_assoc. reflexivity.
    + assert (Hle : (score x <= score best)%Q).
      { apply Qnot_lt_le. intros Hlt. apply Qgtb_iff in Hlt. congruence. }
      destruct (IH best pre (mid ++ [x])%list) as (before & after & Heq & H1 & H2);
        auto.
      * apply Forall_app. split; [exact Hmid | now constructor].
      * exists before, after. split; [|auto].
        rewrite <- Heq. rewrite <- !app_assoc. reflexivity.
Qed.

(** X8: [max(..., key=score)] as used for the tone raises [ValueError] on
    an empty list and otherwise returns the first entry of highest score:
    every entry before it scores strictly less, every entry after it
    scores at most as much. *)
Theorem max_by_score_first (l : list prediction) :
  match max_by_score l with
  | inl e => l = [] /\ e = ValueError
  | inr p =>
      exists before after,
        l = (before ++ p :: after)%list
        /\ Forall (fun x => (score x < score p)%Q) before
        /\ Forall (fun x => (score x <= score p)%Q) after
  end.
Proof.
  destruct l as [|x l]; simpl; [auto|].
  exact (max_from_first x l [] [] (max_from x l) (Forall_nil _) (Forall_nil _) eq_refl).
Qed.

Lemma take_all (n : nat) (s : string) : length s <= n -> take n s = s.
Proof.
  unfold take. revert n. induction s as [|c s IH]; intros n Hn.
  - now destruct n.
  - destruct n as [|n]; simpl in *; [lia|]. rewrite IH; [reflexivity | lia].
Qed.

Lemma map_snd_retained (l : list string) (start : nat) :
  map snd (retained (enumerate start l)) = filter kept l.
Proof.
  revert start. induction l as [|c l IH]; intros start; [reflexivity|].
  cbn [enumerate filter]. rewrite retained_cons.
  destruct (kept c); simpl; now rewrite IH.
Qed.

Section MorePipelineFacts.

Context {ext : Collaborators}.

(** X9: [analyze_tone] returns lowercase labels: the sentiment is the
    lowercased label of the first entry the sentiment classifier returns
    for the first 512 characters, the tone the lowercased label of the
    first highest-scoring entry of the emotion classifier's first list. *)
Theorem analyze_tone_labels (text sentiment_label tone_label : string)
        (Hrun : analyze_tone text = inr (sentiment_label, tone_label)) :
  lower sentiment_label = sentiment_label
  /\ lower tone_label = tone_label
  /\ exists first others scores more before top after,
       sentiment_classifier (take 512 text) = inr (first :: others)
       /\ sentiment_label = lower (label first)
       /\ emotion_classifier (take 512 text) = inr (scores :: more)
       /\ scores = (before ++ top :: after)%list
       /\ tone_label = lower (label top)
       /\ Forall (fun x => (score x < score top)%Q) before
       /\ Forall (fun x => (score x <= score top)%Q) after.
Proof.
  unfold analyze_tone in Hrun.
  destruct (sentiment_classifier (take 512 text)) as [e|[|first others]] eqn:Hs;
    cbn [bind item0 raise ret] in Hrun; try discriminate.
  destruct (emotion_classifier (take 512 text)) as [e|[|scores more]] eqn:He;
    cbn [bind item0 raise ret] in Hrun; try discriminate.
  pose proof (max_by_score_first scores) as Hmax.
  destruct (max_by_score scores) as [e|top]; cbn [bind] in Hrun; [discriminate|].
  injection Hrun as <- <-. rewrite !lower_idem.
  destruct Hmax as (before & after & Heq & Hlt & Hle).
  split; [reflexivity|]. split; [reflexivity|].
  exists first, others, scores, more, before, top, after. auto 10.
Qed.

(** X10: when [analyze_tone] fails.  It raises exactly in five cases, in
    this order: the sentiment classifier raises (same exception); it
    returns an empty list ([IndexError]); the emotion classifier raises
    (same exception); it returns an empty list ([IndexError]); its first
    list is empty ([ValueError]).  A sentiment failure hides whatever the
    emotion classifier would do. *)
Theorem analyze_tone_failures (text : string) (e : exn) :
  analyze_tone text = inl e <->
  sentiment_classifier (take 512 text) = inl e
  \/ (sentiment_classifier (take 512 text) = inr [] /\ e = IndexError)
  \/ ((exists first others,
          sentiment_classifier (take 512 text) = inr (first :: others))
      /\ (emotion_classifier (take 512 text) = inl e
          \/ (emotion_classifier (take 512 text) = inr [] /\ e = IndexError)
          \/ ((exists more, emotion_classifier (take 512 text) = inr ([] :: more))
              /\ e = ValueError))).
Proof.
  unfold analyze_tone.
  destruct (sentiment_classifier (take 512 text)) as [e1|[|first others]];
    cbn [bind item0 raise ret].
  - split; [intros H; injection H as ->; now left|].
    intros [H | [[H _] | [(f & o & H) _]]]; congruence.
  - split; [intros H; injection H as <-; right; left; auto|].
    intros [H | [[_ ->] | [(f & o & H) _]]]; congruence.
  - destruct (emotion_classifier (take 512 text)) as [e2|[|[|x scores] more]];
      cbn [bind item0 raise ret max_by_score].
    + split.
      * intros H. injection H as ->. right; right. split; [eauto | now left].
      * intros [H | [[H _] | [_ [H | [[H _] | [[m H] _]]]]]]; congruence.
    + split.
      * intros H. injection H as <-. right; right. split; [eauto | auto].
      * intros [H | [[H _] | [_ [H | [[_ ->] | [[m H] _]]]]]]; congruence.
    + split.
      * intros H. injection H as <-. right; right. split; [eauto|].
        right; right. split; [eauto | reflexivity].
      * intros [H | [[H _] | [_ [H | [[H _] | [_ ->]]]]]]; congruence.
    + split; [discriminate|].
      intros [H | [[H _] | [_ [H | [[H _] | [[m H] _]]]]]]; congruence.
Qed.

(** X11: [extract_timeline] fails exactly when [search_dates] does, with
    the same exception; when [search_dates] finds nothing ([None] or an
    empty list) it returns the empty list; otherwise it returns one pair
    per date found, in order, with the matched text unchanged. *)
Theorem extract_timeline_outcome (clause : string) :
  match search_dates clause with
  | inl e => extract_timeline clause = inl e
  | inr None => extract_timeline clause = inr []
  | inr (Some found) =>
      exists pairs,
        extract_timeline clause = inr pairs
        /\ map fst pairs = map fst found
        /\ map snd pairs = map (fun d => strftime_ymd (snd d)) found
  end.
Proof.
  unfold extract_timeline. destruct (search_dates clause) as [e|[[|d ds]|]];
    cbn [bind ret]; try reflexivity.
  - now exists [].
  - exists (map (fun x => (fst x, strftime_ymd (snd x))) (d :: ds)).
    split; [reflexivity|].
    split; rewrite map_map; apply map_ext; reflexivity.
Qed.

(** X12: texts within the budget are not truncated: a clause of at most
    512 characters reaches both classifiers whole, and a document of at
    most 1024 characters reaches the summarizer whole. *)
Theorem short_texts_not_truncated (clause document : string)
        (Hclause : length clause <= 512) (Hdocument : length document <= 1024) :
  analyze_tone clause
  = (sentiment_out <- sentiment_classifier clause ;;
     sentiment_top <- item0 sentiment_out ;;
     emotion_out <- emotion_classifier clause ;;
     emotion_scores <- item0 emotion_out ;;
     top <- max_by_score emotion_scores ;;
     ret (lower (label sentiment_top), lower (label top)))
  /\ summarize document = (summary_out <- summarizer document ;; item0 summary_out).
Proof.
  unfold analyze_tone, summarize.
  rewrite (take_all _ _ Hclause), (take_all _ _ Hdocument). split; [reflexivity|].
  destruct (summarizer document) as [e|[|x l]]; reflexivity.
Qed.

Lemma analyze_clause_inv (i : nat) (clause : string) (r : ClauseResult) :
  analyze_clause i clause = inr r ->
  exists found labels,
    extract_timeline clause = inr found
    /\ analyze_tone clause = inr labels
    /\ r = {| clause_num := i;
              clause_text := clause;
              category := classify_clause clause;
              importance := fst (grade_clause clause);
              risk_score := snd (grade_clause clause);
              dates := found;
              boilerplate := detect_boilerplate clause;
              sentiment := fst labels;
              tone := snd labels;
              rewrite_suggestion := rewrite_clause clause |}.
Proof.
  unfold analyze_clause. destruct (grade_clause clause) as [imp sc].
  destruct (extract_timeline clause) as [e|found]; cbn [bind]; [discriminate|].
  destruct (analyze_tone clause) as [e|[s t]]; cbn [bind]; [discriminate|].
  intros H. injection H as <-. exists found, (s, t). auto.
Qed.

Lemma grade_score_le (clause : string) : snd (grade_clause clause) <= 4.
Proof.
  unfold grade_clause. cbn [snd].
  change 4 with (List.length risk_keywords). apply filter_length_le.
Qed.

(** X13: every record of [analyze_document] describes its own clause: the
    category, importance, risk score, boilerplate flag and rewrite
    suggestion are the heuristics applied to the record's [clause_text],
    the dates, sentiment and tone are what [extract_timeline] and
    [analyze_tone] return for it, and the risk score is at most 4. *)
Theorem results_describe_their_clause (text : string)
        (results : list ClauseResult)
        (Hrun : analyze_document text = inr results) :
  Forall (fun r =>
            category r = classify_clause (clause_text r)
            /\ (importance r, risk_score r) = grade_clause (clause_text r)
            /\ risk_score r <= 4
            /\ boilerplate r = detect_boilerplate (clause_text r)
            /\ rewrite_suggestion r = rewrite_clause (clause_text r)
            /\ extract_timeline (clause_text r) = inr (dates r)
            /\ analyze_tone (clause_text r) = inr (sentiment r, tone r))
         results.
Proof.
  pose proof (analyze_document_outcome text) as H. rewrite Hrun in H. clear Hrun.
  induction H as [|[i c] r items results Hy _ IH]; [constructor|].
  constructor; [|exact IH].
  apply analyze_clause_inv in Hy. cbn [fst snd] in Hy.
  destruct Hy as (found & [s t] & Hd & Ht & ->).
  cbn [category clause_text importance risk_score boilerplate
       rewrite_suggestion dates sentiment tone fst snd].
  split; [reflexivity|]. split; [now destruct (grade_clause c)|].
  split; [apply grade_score_le|]. auto.
Qed.

(** X14: the output of [analyze_document] lists exactly the clauses of the
    splitter that are non-empty after stripping, in order and once each;
    no output clause is blank or holds a newline, and there are at most
    as many results as clauses. *)
Theorem results_cover_retained_clauses (text : string)
        (results : list ClauseResult)
        (Hrun : analyze_document text = inr results) :
  map clause_text results = filter kept (split_into_clauses text)
  /\ List.length results <= List.length (split_into_clauses text)
  /\ Forall (fun r => strip (clause_text r) <> EmptyString
                      /\ all_chars (fun c => negb (is_char "010" c)) (clause_text r)
                         = true) results.
Proof.
  apply analyze_document_pairs in Hrun.
  assert (Htexts : map clause_text results = filter kept (split_into_clauses text)).
  { rewrite <- (map_snd_retained _ 1), <- Hrun, map_map. reflexivity. }
  split; [exact Htexts|]. split.
  - rewrite <- (length_map clause_text), Htexts. apply filter_length_le.
  - apply Forall_forall. intros r Hr.
    assert (Hin : In (clause_text r) (filter kept (split_into_clauses text))).
    { rewrite <- Htexts. now apply in_map. }
    apply filter_In in Hin. destruct Hin as [Hin Hk]. split.
    + unfold kept in Hk. destruct (strip (clause_text r)); [discriminate|discriminate].
    + pose proof (split_into_clauses_no_newline text) as Hnl.
      rewrite Forall_forall in Hnl. exact (Hnl _ Hin).
Qed.

End MorePipelineFacts.

(** ** Matching blocks never overlap *)

Module DifflibSizes.
Import Difflib.

Lemma sum_sizes_cons_app (x : block) (l1 l2 : list block) :
  list_sum (map size (x :: l1 ++ l2))
  = size x + list_sum (map size l1) + list_sum (map size l2).
Proof.
  change (x :: l1 ++ l2)%list with ([x] ++ l1 ++ l2)%list.
  rewrite !map_app, !list_sum_app. simpl. lia.
Qed.

Lemma blocks_sum_le (a b : list ascii) (fuel alo ahi blo bhi : nat) :
  alo <= ahi -> blo <= bhi ->
  list_sum (map size (blocks a b fuel alo ahi blo bhi))
  <= Nat.min (ahi - alo) (bhi - blo).
Proof.
  revert alo ahi blo bhi. induction fuel as [|fuel IH];
    intros alo ahi blo bhi Ha Hb; [simpl; lia|].
  cbn [blocks].
  pose proof (DifflibFacts.find_longest_match_bounds a b alo ahi blo bhi Ha Hb) as Hok.
  destruct (find_longest_match a b alo ahi blo bhi) as [[i j] k].
  unfold best_ok in Hok. destruct (k =? 0); [simpl; lia|].
  rewrite sum_sizes_cons_app. unfold size at 1. cbn [snd].
  assert (Hl : list_sum (map size (if (alo <? i) && (blo <? j)
                                   then blocks a b fuel alo i blo j else []))
               <= Nat.min (i - alo) (j - blo)).
  { destruct ((alo <? i) && (blo <? j)); [apply IH; lia | simpl; lia]. }
  assert (Hr : list_sum (map size (if (i + k <? ahi) && (j + k <? bhi)
                                   then blocks a b fuel (i + k) ahi (j + k) bhi
                                   else []))
               <= Nat.min (ahi - (i + k)) (bhi - (j + k))).
  { destruct ((i + k <? ahi) && (j + k <? bhi)); [apply IH; lia | simpl; lia]. }
  lia.
Qed.

Lemma matches_le (a b : list ascii) :
  list_sum (map size (get_matching_blocks a b))
  <= Nat.min (List.length a) (List.length b).
Proof.
  unfold get_matching_blocks.
  pose proof (blocks_sum_le a b (S (List.length a)) 0 (List.length a) 0
                (List.length b) (Nat.le_0_l _) (Nat.le_0_l _)) as H.
  now rewrite !Nat.sub_0_r in H.
Qed.

Lemma length_list_ascii (s : string) :
  List.length (list_ascii_of_string s) = length s.
Proof. induction s as [|c s IH]; simpl; [reflexivity | now rewrite IH]. Qed.

(** A ratio above 0.8 bounds the length of the first text by the length
    of the second. *)
Lemma ratio_window (a b : string) :
  (8 # 10 < ratio a b)%Q -> 0 < length b ->
  2 * length b < 3 * length a /\ 2 * length a < 3 * length b.
Proof.
  unfold ratio. pose proof (matches_le (list_ascii_of_string a)
                                        (list_ascii_of_string b)) as Hm.
  rewrite !length_list_ascii in *.
  set (m := list_sum _) in *. clearbody m.
  intros Hlt Hb. unfold calculate_ratio in Hlt.
  destruct (length a + length b) as [|t] eqn:Ht; [lia|].
  unfold Qlt in Hlt. cbn [Qnum Qden] in Hlt.
  rewrite <- Ht in Hlt.
  assert (Hpos : Z.pos (Pos.of_nat (length a + length b))
                 = Z.of_nat (length a + length b)).
  { rewrite Ht. lia. }
  rewrite Hpos in Hlt. lia.
Qed.

End DifflibSizes.

(** X15: only clauses of 37 to 89 characters can be flagged: whatever its
    text, a clause shorter than 37 or longer than 89 characters is never
    boilerplate. *)
Theorem boilerplate_length_window (clause : string)
        (Hflag : detect_boilerplate clause = true) :
  37 <= length clause <= 89.
Proof.
  unfold detect_boilerplate in Hflag.
  rewrite detect_templates_existsb in Hflag. apply existsb_exists in Hflag.
  destruct Hflag as (t & Hin & Hgt). apply Qgtb_iff in Hgt.
  change boilerplate_threshold with (8 # 10)%Q in Hgt.
  assert (Hlen : length (lower t) = 60 \/ length (lower t) = 55).
  { destruct Hin as [<- | [<- | []]]; [left | right]; reflexivity. }
  apply DifflibSizes.ratio_window in Hgt; [|lia].
  rewrite (length_lower clause) in Hgt. lia.
Qed.

Lemma boilerplate_length_window_witness :
  detect_boilerplate "The parties agree to the following terms and conditions."
  = true
  /\ 37 <= length "The parties agree to the following terms and conditions." <= 89.
Proof.
  assert (H : detect_boilerplate
                "The parties agree to the following terms and conditions." = true)
    by (vm_compute; reflexivity).
  split; [exact H|]. exact (boilerplate_length_window _ H).
Defined.

Section OrchestratorOutcomes.

Context {ext : Collaborators}.

Lemma analyze_clause_succeeds (i : nat) (clause : string) :
  (exists found, extract_timeline clause = inr found) ->
  (exists labels, analyze_tone clause = inr labels) ->
  exists r, analyze_clause i clause = inr r.
Proof.
  intros [found Hd] [[s t] Ht]. unfold analyze_clause.
  destruct (grade_clause clause) as [imp sc].
  rewrite Hd, Ht. cbn [bind]. eauto.
Qed.

(** X16: [analyze_document] succeeds whenever the collaborators do: if
    [extract_timeline] and [analyze_tone] return a value on every clause
    that is non-empty after stripping, the call returns one result for
    each of those clauses. *)
Theorem analyze_document_succeeds (text : string)
        (Hok : Forall (fun clause =>
                         (exists found, extract_timeline clause = inr found)
                         /\ (exists labels, analyze_tone clause = inr labels))
                      (filter kept (split_into_clauses text))) :
  exists results,
    analyze_document text = inr results
    /\ List.length results = List.length (filter kept (split_into_clauses text)).
Proof.
  pose proof (analyze_document_outcome text) as H.
  destruct (analyze_document text) as [e|results].
  - exfalso. destruct H as (before & [i c] & after & Heq & _ & Hfail).
    assert (Hin : In c (filter kept (split_into_clauses text))).
    { rewrite <- (map_snd_retained _ 1), Heq, map_app. apply in_or_app.
      right. now left. }
    rewrite Forall_forall in Hok. destruct (Hok c Hin) as [Hd Ht].
    destruct (analyze_clause_succeeds i c Hd Ht) as [r Hr].
    simpl in Hfail. congruence.
  - exists results. split; [reflexivity|].
    rewrite <- (map_snd_retained _ 1), length_map.
    symmetry. exact (Forall2_length H).
Qed.

(** X17: whitespace around a document never changes the analysis, and a
    document made of whitespace only gives the empty list of results
    whatever the collaborators would do. *)
Theorem analyze_document_strip (text : string) :
  analyze_document (strip text) = analyze_document text
  /\ (all_chars isspace text = true -> analyze_document text = inr []).
Proof.
  unfold analyze_document, split_into_clauses. rewrite strip_idem.
  split; [reflexivity|]. intros H. now rewrite (strip_blank text H).
Qed.

End OrchestratorOutcomes.

Lemma analyze_document_succeeds_witness :
  exists results,
    analyze_document (ext := demo) doc_blank_line = inr results
    /\ List.length results = List.length (filter kept (split_into_clauses doc_blank_line)).
Proof.
  apply (analyze_document_succeeds (ext := demo) doc_blank_line).
  change (filter kept (split_into_clauses doc_blank_line)) with ["Alpha"; "Beta"].
  repeat constructor; eexists; reflexivity.
Defined.

Lemma analyze_document_strip_witness :
  all_chars isspace (" " ++ NL ++ TAB ++ " ") = true
  /\ analyze_document (ext := demo) (" " ++ NL ++ TAB ++ " ") = inr [].
Proof.
  split; [reflexivity|].
  apply (proj2 (analyze_document_strip (ext := demo) (" " ++ NL ++ TAB ++ " "))).
  reflexivity.
Defined.

(** ** Lines and extensions *)

Lemma split_char_nonempty (c : ascii) (s : string) : split_char c s <> [].
Proof.
  induction s as [|x s IH]; simpl; [discriminate|].
  destruct (Ascii.eqb x c); [discriminate|].
  destruct (split_char c s); [congruence | discriminate].
Qed.

Lemma split_char_app (c : ascii) (a b : string) :
  split_char c (a ++ String c b) = (split_char c a ++ split_char c b)%list.
Proof.
  induction a as [|x a IH]; simpl.
  - now rewrite Ascii.eqb_refl.
  - rewrite IH. destruct (Ascii.eqb x c); [reflexivity|].
    pose proof (split_char_nonempty c a) as Hne.
    destruct (split_char c a); [congruence | reflexivity].
Qed.

Lemma split_char_none (c : ascii) (s : string) :
  all_chars (fun x => negb (is_char c x)) s = true -> split_char c s = [s].
Proof.
  induction s as [|x s IH]; simpl; [reflexivity|].
  intros H. apply andb_true_iff in H. destruct H as [Hx Hs].
  unfold is_char in Hx. rewrite Ascii.eqb_sym in Hx.
  apply negb_true_iff in Hx. rewrite Hx, (IH Hs). reflexivity.
Qed.

Lemma split_char_concat (c : ascii) (parts : list string) :
  parts <> [] ->
  Forall (fun part => all_chars (fun x => negb (is_char c x)) part = true) parts ->
  split_char c (concat (String c EmptyString) parts) = parts.
Proof.
  induction parts as [|p parts IH]; [congruence|]. intros _ Hall.
  inversion Hall as [|? ? Hp Hparts]; subst.
  destruct parts as [|q parts]; [now apply split_char_none|].
  change (concat (String c EmptyString) (p :: q :: parts))
    with (p ++ String c (concat (String c EmptyString) (q :: parts))).
  rewrite split_char_app, (split_char_none c p Hp), IH; auto. discriminate.
Qed.

Lemma append_inj_l (p x y : string) : p ++ x = p ++ y -> x = y.
Proof.
  induction p as [|c p IH]; simpl; [auto|]. intros H. injection H as H. auto.
Qed.

Lemma str_of_nat_inj (n m : nat) : str_of_nat n = str_of_nat m -> n = m.
Proof.
  unfold str_of_nat. intros H. apply DecimalNat.Unsigned.to_uint_inj.
  assert (Hs : Some (Nat.to_uint n) = Some (Nat.to_uint m)).
  { rewrite <- !NilEmpty.usu. now rewrite H. }
  now injection Hs.
Qed.

Lemma sorted_lt_NoDup (l : list nat) : StronglySorted lt l -> NoDup l.
Proof.
  induction 1 as [|x l Hs IH Hall]; constructor; [|exact IH].
  intros Hin. rewrite Forall_forall in Hall. specialize (Hall x Hin). lia.
Qed.

Lemma NoDup_map_inj {A B : Type} (f : A -> B) (l : list A) :
  (forall x y, f x = f y -> x = y) -> NoDup l -> NoDup (map f l).
Proof.
  intros Hinj. induction 1 as [|x l Hx Hnd IH]; simpl; constructor; [|exact IH].
  intros Hin. apply in_map_iff in Hin. destruct Hin as (y & Hy & Hin).
  apply Hinj in Hy. now subst y.
Qed.

Lemma set_minus_In (l1 l2 : list string) (x : string) :
  In x (set_minus l1 l2) <-> In x l1 /\ ~ In x l2.
Proof.
  unfold set_minus. rewrite nodup_In, filter_In, negb_true_iff.
  split; intros [H1 H2]; split; auto.
  - intros Hin. assert (existsb (String.eqb x) l2 = true); [|congruence].
    apply existsb_exists. exists x. split; [exact Hin | apply String.eqb_refl].
  - destruct (existsb (String.eqb x) l2) eqn:He; [|reflexivity].
    apply existsb_exists in He. destruct He as (y & Hy & Heq).
    apply String.eqb_eq in Heq. subst y. contradiction.
Qed.

Lemma set_minus_self (l : list string) : set_minus l l = [].
Proof.
  destruct (set_minus l l) as [|x rest] eqn:H; [reflexivity|].
  assert (Hin : In x (set_minus l l)) by (rewrite H; now left).
  apply set_minus_In in Hin. tauto.
Qed.

Section ApplicationFacts.

Context {libs : FileLibs}.

(** X18: [read_docx] keeps the non-blank paragraphs, one per line: when
    no paragraph text holds a newline, splitting the returned text at
    newlines (as the comparison does) gives back exactly the paragraphs
    that are non-empty after stripping; without such a paragraph the text
    is empty. *)
Theorem read_docx_lines (file : upload) (paragraphs : list string)
        (Hdoc : docx_paragraphs file = inr paragraphs) :
  exists text,
    read_docx file = inr text
    /\ (filter kept paragraphs = [] -> text = EmptyString)
    /\ (filter kept paragraphs <> [] ->
        Forall (fun p => no_newline p = true) paragraphs ->
        split_char "010" text = filter kept paragraphs).
Proof.
  unfold read_docx. rewrite Hdoc. cbn [bind ret].
  exists (concat NL (filter kept paragraphs)). split; [reflexivity|]. split.
  - now intros ->.
  - intros Hne Hall. apply split_char_concat; [exact Hne|].
    apply Forall_forall. intros p Hp. apply filter_In in Hp.
    rewrite Forall_forall in Hall. exact (Hall p (proj1 Hp)).
Qed.

(** X19: the extension [load_text] dispatches on is the lowercased text
    after the last period of the file name, and the whole lowercased name
    when it has no period; [load_text] returns [None] exactly when that
    extension is none of txt, docx, pdf, and then reads nothing. *)
Theorem load_text_extension (file : upload) :
  (forall stem e,
      upload_name file = stem ++ "." ++ e -> no_dot e = true ->
      file_ext file = lower e)
  /\ (no_dot (upload_name file) = true -> file_ext file = lower (upload_name file))
  /\ (load_text file = inr None <-> supported_ext (file_ext file) = false).
Proof.
  split; [|split].
  - intros stem e Hname He. unfold file_ext. rewrite Hname.
    change (stem ++ "." ++ e) with (stem ++ String "." e).
    rewrite split_char_app, (split_char_none "." e He), last_last. reflexivity.
  - intros Hname. unfold file_ext. now rewrite (split_char_none "." _ Hname).
  - unfold load_text, supported_ext, read_txt, read_docx, read_pdf.
    destruct (file_ext file =? "txt")%string.
    { destruct (read_decode_utf8 file); cbn; split; discriminate. }
    destruct (file_ext file =? "docx")%string.
    { destruct (docx_paragraphs file); cbn; split; discriminate. }
    destruct (file_ext file =? "pdf")%string.
    { destruct (pdf_page_texts file); cbn; split; discriminate. }
    split; reflexivity.
Qed.

(** X20: the sidebar agrees with [load_text] and never queries the
    question-answering model with an empty context.  With a question and
    a file, a reading failure propagates; an unsupported file and a file
    whose text is empty both get the "supported document" warning;
    otherwise the answer is the model's answer on the question and the
    text [load_text] returns.  Without a question nothing is read;
    without a file the "upload a document" warning is shown. *)
Theorem clausebot_outcome (question : string) (file : upload) :
  clausebot EmptyString (Some file) = inr ChatSilent
  /\ (question <> EmptyString ->
      clausebot question None = inr ChatWarnNoDocument
      /\ clausebot question (Some file)
         = match load_text file with
           | inl e => inl e
           | inr None => inr ChatWarnUnsupported
           | inr (Some EmptyString) => inr ChatWarnUnsupported
           | inr (Some context) =>
               answer <- qa_pipeline question context ;; ret (ChatAnswer answer)
           end).
Proof.
  split; [reflexivity|]. intros Hq.
  destruct question as [|q0 question]; [congruence|].
  split; [reflexivity|]. unfold clausebot, load_text. cbn [truthy].
  destruct (file_ext file =? "txt")%string.
  { destruct (read_txt file) as [e|[|c t]]; reflexivity. }
  destruct (file_ext file =? "docx")%string.
  { destruct (read_docx file) as [e|[|c t]]; reflexivity. }
  destruct (file_ext file =? "pdf")%string.
  { destruct (read_pdf file) as [e|[|c t]]; reflexivity. }
  reflexivity.
Qed.

(** X21: what the comparison reports.  A report is produced only when
    both files load to non-empty text; a line is listed as missing in
    document 2 exactly when it is a line of document 1 and not of document
    2, and the other way round; each line is listed once and no line is
    in both lists. *)
Theorem compare_documents_report (doc1 doc2 : option upload)
        (missing_in_2 missing_in_1 : list string)
        (Hrun : compare_documents doc1 doc2
                = inr (CompareReport missing_in_2 missing_in_1)) :
  exists file1 file2 text1 text2,
    doc1 = Some file1 /\ doc2 = Some file2
    /\ load_text file1 = inr (Some text1) /\ load_text file2 = inr (Some text2)
    /\ text1 <> EmptyString /\ text2 <> EmptyString
    /\ (forall line, In line missing_in_2 <->
                     In line (split_char "010" text1)
                     /\ ~ In line (split_char "010" text2))
    /\ (forall line, In line missing_in_1 <->
                     In line (split_char "010" text2)
                     /\ ~ In line (split_char "010" text1))
    /\ NoDup missing_in_2 /\ NoDup missing_in_1
    /\ (forall line, ~ (In line missing_in_2 /\ In line missing_in_1)).
Proof.
  unfold compare_documents in Hrun.
  destruct doc1 as [file1|]; [|discriminate].
  destruct doc2 as [file2|]; [|discriminate].
  destruct (load_text file1) as [e|[t1|]] eqn:H1; cbn [bind] in Hrun;
    try discriminate;
    destruct (load_text file2) as [e|[t2|]] eqn:H2; cbn [bind] in Hrun;
    try discriminate.
  destruct t1 as [|c1 t1]; [discriminate|].
  destruct t2 as [|c2 t2]; [discriminate|].
  cbn [truthy andb ret] in Hrun. injection Hrun as <- <-.
  exists file1, file2, (String c1 t1), (String c2 t2).
  do 2 (split; [reflexivity|]). split; [exact H1|]. split; [exact H2|].
  do 2 (split; [discriminate|]).
  do 2 (split; [intros line; apply set_minus_In|]).
  do 2 (split; [apply NoDup_nodup|]).
  intros line [Ha Hb]. apply set_minus_In in Ha. apply set_minus_In in Hb. tauto.
Qed.

(** X22: a document compared with itself has nothing missing on either
    side, whenever the comparison reports at all. *)
Theorem compare_documents_self (file : upload)
        (missing_in_2 missing_in_1 : list string)
        (Hrun : compare_documents (Some file) (Some file)
                = inr (CompareReport missing_in_2 missing_in_1)) :
  missing_in_2 = [] /\ missing_in_1 = [].
Proof.
  unfold compare_documents in Hrun.
  destruct (load_text file) as [e|[t|]]; cbn [bind] in Hrun; try discriminate.
  destruct (truthy t && truthy t); [|discriminate].
  injection Hrun as <- <-. now rewrite set_minus_self.
Qed.

End ApplicationFacts.

Section WidgetKeys.

Context {ext : Collaborators}.

(** X23: the feedback widgets of one analysis have pairwise distinct
    keys: no two results of [analyze_document] share their
    [feedback_<clause_num>] key. *)
Theorem feedback_keys_distinct (text : string) (results : list ClauseResult)
        (Hrun : analyze_document text = inr results) :
  NoDup (map feedback_key results).
Proof.
  apply analyze_document_pairs in Hrun.
  assert (Hnums : NoDup (map clause_num results)).
  { apply sorted_lt_NoDup.
    replace (map clause_num results)
      with (map fst (retained (enumerate 1 (split_into_clauses text))))
      by (rewrite <- Hrun, map_map; reflexivity).
    apply retained_enumerate_sorted. }
  change (map feedback_key results)
    with (map (fun r => "feedback_" ++ str_of_nat (clause_num r)) results).
  rewrite <- (map_map clause_num (fun n => "feedback_" ++ str_of_nat n)).
  apply NoDup_map_inj; [|exact Hnums].
  intros n m H. apply append_inj_l in H. now apply str_of_nat_inj.
Qed.

End WidgetKeys.

(** ** The further properties on sample inputs *)

Lemma analyze_tone_labels_witness :
  analyze_tone (ext := demo) "We are liable for any breach." = inr ("negative", "fear")
  /\ lower "negative" = "negative" /\ lower "fear" = "fear".
Proof.
  assert (H : analyze_tone (ext := demo) "We are liable for any breach."
              = inr ("negative", "fear")) by reflexivity.
  split; [exact H|].
  pose proof (analyze_tone_labels (ext := demo) _ _ _ H) as (H1 & H2 & _).
  split; [exact H1 | exact H2].
Defined.

Lemma short_texts_not_truncated_witness :
  length "Either party may terminate." <= 512
  /\ length "A short agreement." <= 1024
  /\ summarize (ext := demo) "A short agreement."
     = (summary_out <- summarizer (Collaborators := demo) "A short agreement." ;;
        item0 summary_out).
Proof.
  assert (H1 : length "Either party may terminate." <= 512) by (simpl; lia).
  assert (H2 : length "A short agreement." <= 1024) by (simpl; lia).
  split; [exact H1|]. split; [exact H2|].
  exact (proj2 (short_texts_not_truncated (ext := demo) _ _ H1 H2)).
Defined.

Lemma results_describe_their_clause_witness :
  analyze_document (ext := demo) doc_blank_line = inr (demo_results doc_blank_line)
  /\ Forall (fun r => category r = classify_clause (clause_text r)
                      /\ risk_score r <= 4)
            (demo_results doc_blank_line).
Proof.
  split; [reflexivity|].
  eapply Forall_impl;
    [|exact (results_describe_their_clause (ext := demo) doc_blank_line
               (demo_results doc_blank_line) eq_refl)].
  intros r H. split; [apply H | apply H].
Defined.

Lemma results_cover_retained_clauses_witness :
  analyze_document (ext := demo) doc_blank_line = inr (demo_results doc_blank_line)
  /\ map clause_text (demo_results doc_blank_line) = ["Alpha"; "Beta"]
  /\ map clause_text (demo_results doc_blank_line)
     = filter kept (split_into_clauses doc_blank_line).
Proof.
  split; [reflexivity|]. split; [reflexivity|].
  exact (proj1 (results_cover_retained_clauses (ext := demo) doc_blank_line
                  (demo_results doc_blank_line) eq_refl)).
Defined.

Lemma feedback_keys_distinct_witness :
  analyze_document (ext := demo) doc_blank_line = inr (demo_results doc_blank_line)
  /\ map feedback_key (demo_results doc_blank_line) = ["feedback_1"; "feedback_3"]
  /\ NoDup (map feedback_key (demo_results doc_blank_line)).
Proof.
  split; [reflexivity|]. split; [reflexivity|].
  exact (feedback_keys_distinct (ext := demo) doc_blank_line
           (demo_results doc_blank_line) eq_refl).
Defined.

Lemma read_docx_lines_witness :
  docx_paragraphs (FileLibs := demo_libs) upload_docx = inr (snd upload_docx)
  /\ read_docx (libs := demo_libs) upload_docx
     = inr ("First paragraph." ++ NL ++ "Second one.")
  /\ exists text,
       read_docx (libs := demo_libs) upload_docx = inr text
       /\ (filter kept (snd upload_docx) = [] -> text = EmptyString)
       /\ (filter kept (snd upload_docx) <> [] ->
           Forall (fun p => no_newline p = true) (snd upload_docx) ->
           split_char "010" text = filter kept (snd upload_docx)).
Proof.
  split; [reflexivity|]. split; [reflexivity|].
  exact (read_docx_lines (libs := demo_libs) upload_docx (snd upload_docx) eq_refl).
Defined.

Lemma load_text_extension_witness :
  upload_name (FileLibs := demo_libs) upload_docx = "Lease.v2" ++ "." ++ "DOCX"
  /\ no_dot "DOCX" = true
  /\ file_ext (libs := demo_libs) upload_docx = "docx".
Proof.
  split; [reflexivity|]. split; [reflexivity|].
  exact (proj1 (load_text_extension (libs := demo_libs) upload_docx)
               "Lease.v2" "DOCX" eq_refl eq_refl).
Defined.

Lemma clausebot_outcome_witness :
  "Who pays?" <> EmptyString
  /\ load_text (libs := demo_libs) upload_empty_pdf = inr (Some EmptyString)
  /\ clausebot (libs := demo_libs) "Who pays?" (Some upload_empty_pdf)
     = inr ChatWarnUnsupported.
Proof.
  assert (Hq : "Who pays?" <> EmptyString) by discriminate.
  split; [exact Hq|]. split; [reflexivity|].
  exact (proj2 (proj2 (clausebot_outcome (libs := demo_libs) "Who pays?"
                                         upload_empty_pdf) Hq)).
Defined.

Lemma compare_documents_report_witness :
  compare_documents (libs := demo_libs) (Some upload_old) (Some upload_new)
  = inr (CompareReport ["alpha"] ["gamma"])
  /\ exists file1 file2 text1 text2,
       Some upload_old = Some file1 /\ Some upload_new = Some file2
       /\ load_text (libs := demo_libs) file1 = inr (Some text1)
       /\ load_text (libs := demo_libs) file2 = inr (Some text2)
       /\ text1 <> EmptyString /\ text2 <> EmptyString
       /\ (forall line, In line ["alpha"] <->
                        In line (split_char "010" text1)
                        /\ ~ In line (split_char "010" text2))
       /\ (forall line, In line ["gamma"] <->
                        In line (split_char "010" text2)
                        /\ ~ In line (split_char "010" text1))
       /\ NoDup ["alpha"] /\ NoDup ["gamma"]
       /\ (forall line, ~ (In line ["alpha"] /\ In line ["gamma"])).
Proof.
  split; [reflexivity|].
  exact (compare_documents_report (libs := demo_libs) (Some upload_old)
           (Some upload_new) ["alpha"] ["gamma"] eq_refl).
Defined.

Lemma compare_documents_self_witness :
  compare_documents (libs := demo_libs) (Some upload_old) (Some upload_old)
  = inr (CompareReport [] [])
  /\ (@nil string = [] /\ @nil string = []).
Proof.
  split; [reflexivity|].
  exact (compare_documents_self (libs := demo_libs) upload_old [] [] eq_refl).
Defined.

(** ** Clauses hold no boundary *)

Lemma split_from_head_prefix (prev : option ascii) (s : string) :
  exists p ps more,
    Re.split_from clause_boundary 0 prev s = p :: ps /\ s = p ++ more.
Proof.
  revert prev. induction s as [|c s IH]; intros prev.
  - now exists EmptyString, [], EmptyString.
  - cbn [Re.split_from].
    destruct (Re.match_here clause_boundary prev (String c s)) as [[|j]|].
    + destruct (IH (Some c)) as (p & ps & more & -> & ->).
      now exists (String c p), ps, more.
    + now exists EmptyString, (Re.split_from clause_boundary j (Some c) s),
        (String c s).
    + destruct (IH (Some c)) as (p & ps & more & -> & ->).
      now exists (String c p), ps, more.
Qed.

Lemma split_from_head_after_match (prev : option ascii) (s : string) (m : nat)
      (p : string) (ps : list string) :
  Re.match_here clause_boundary prev s = Some m ->
  Re.split_from clause_boundary 0 prev s = p :: ps -> p = EmptyString.
Proof.
  intros Hm Hsplit. destruct s as [|c s].
  - simpl in Hsplit. now injection Hsplit as <- _.
  - cbn [Re.split_from] in Hsplit. rewrite Hm in Hsplit.
    destruct m as [|j]; [apply clause_boundary_nonempty in Hm; destruct Hm|].
    now injection Hsplit as <- _.
Qed.

Lemma split_from_marker_free (skip : nat) (prev : option ascii) (s : string) :
  Forall (fun clause => has_marker_dot_ws clause = false)
         (Re.split_from clause_boundary skip prev s).
Proof.
  revert skip prev. induction s as [|c s IH]; intros skip prev.
  - repeat constructor.
  - cbn [Re.split_from]. destruct skip as [|j]; [|apply IH].
    destruct (Re.match_here clause_boundary prev (String c s)) as [[|j]|] eqn:Hm.
    + apply clause_boundary_nonempty in Hm. destruct Hm.
    + constructor; [reflexivity | apply IH].
    + specialize (IH 0 (Some c)).
      destruct (split_from_head_prefix (Some c) s) as (p & ps & more & Hsplit & Hs).
      rewrite Hsplit in *. apply Forall_cons_iff in IH. destruct IH as [Hp Hps].
      cbn [Re.push_char]. constructor; [|exact Hps].
      destruct (has_marker_dot_ws (String c p)) eqn:Hmark; [exfalso|reflexivity].
      unfold has_marker_dot_ws, has_marker in Hmark, Hp. cbn [somewhere] in Hmark.
      apply orb_false_iff in Hp. destruct Hp as [Hp Hp3].
      apply orb_false_iff in Hp. destruct Hp as [Hp1 Hp2].
      rewrite Hp1, Hp2, Hp3, !orb_false_r in Hmark.
      destruct (at_sentence_break (String c p)) eqn:Hsb.
      * pose proof (at_sentence_break_app _ more Hsb) as Hfull.
        change (String c p ++ more) with (String c (p ++ more)) in Hfull.
        rewrite <- Hs in Hfull.
        destruct (sentence_break_complete c s Hfull) as [m Hm'].
        rewrite (split_from_head_after_match _ _ _ _ _ Hm' Hsplit) in Hsb.
        discriminate Hsb.
      * destruct (at_newline (String c p)) eqn:Hnl.
        -- cbn [at_newline] in Hnl. apply is_char_eq in Hnl. subst c.
           destruct (newline_is_cut prev s) as [j Hj]. congruence.
        -- cbn [orb] in Hmark.
           apply (at_enumeration_app _ _ more) in Hmark.
           change (String c p ++ more) with (String c (p ++ more)) in Hmark.
           rewrite <- Hs in Hmark.
           destruct (enumeration_complete prev _ Hmark) as [m Hm']. congruence.
Qed.

Lemma unmarked_is_single (text : string) :
  has_marker_dot_ws text = false -> split_into_clauses text = [strip text].
Proof.
  intros Hfree. unfold split_into_clauses, Re.split.
  apply split_from_unmarked. cbn [before_cursor].
  destruct (has_marker_dot_ws (strip text)) eqn:Hs; [|reflexivity].
  destruct (strip_infix text) as (pre & post & Heq).
  rewrite Heq in Hfree. unfold has_marker_dot_ws in *.
  now rewrite has_marker_infix in Hfree.
Qed.

(** X24: no clause spans a boundary.  Every clause returned by
    [split_into_clauses] is free of boundary markers, so splitting a
    clause again changes nothing but its surrounding whitespace. *)
Theorem clauses_hold_no_boundary (text : string) :
  Forall (fun clause =>
            has_marker_dot_ws clause = false
            /\ split_into_clauses clause = [strip clause])
         (split_into_clauses text).
Proof.
  eapply Forall_impl; [|apply split_from_marker_free].
  intros clause H. split; [exact H | now apply unmarked_is_single].
Qed.

Lemma append_pages_concat (text : string) (pages : list string) :
  append_pages text pages = text ++ concat EmptyString pages.
Proof.
  revert text. induction pages as [|page pages IH]; intros text; simpl.
  - now rewrite append_nil_r.
  - rewrite IH, append_assoc. destruct pages as [|q pages]; simpl.
    + now rewrite append_nil_r.
    + reflexivity.
Qed.

Section ReadPdf.

Context {libs : FileLibs}.

(** X25: [read_pdf] glues the page texts together in page order with
    nothing in between: the text has exactly the characters of the pages,
    and a PDF without pages gives the empty string. *)
Theorem read_pdf_pages (file : upload) :
  match pdf_page_texts file with
  | inl e => read_pdf file = inl e
  | inr pages =>
      read_pdf file = inr (concat EmptyString pages)
      /\ (forall text, read_pdf file = inr text ->
                       length text = list_sum (map length pages))
  end.
Proof.
  unfold read_pdf. destruct (pdf_page_texts file) as [e|pages]; cbn [bind ret];
    [reflexivity|].
  rewrite append_pages_concat. cbn [append]. split; [reflexivity|].
  intros text H. injection H as <-.
  induction pages as [|p pages IH]; [reflexivity|].
  destruct pages as [|q pages].
  - simpl. lia.
  - change (concat EmptyString (p :: q :: pages))
      with (p ++ EmptyString ++ concat EmptyString (q :: pages)).
    cbn [append map list_sum]. rewrite length_app, IH. reflexivity.
Qed.

End ReadPdf.

